(** * The string interning table of [src/root/stringtable.c]

    A shallow embedding of the string table (hasher, pooled allocator,
    handle codec, open-addressing hash table) and the proofs of its
    specified properties.

    Target: x86_64 (LP64).  [size_t] is a 64-bit and [uint32_t] a 32-bit
    unsigned integer; both are modelled as [Z] with the wrap-around written
    out.  Bytes are [Byte.byte]; the C strings [(s, length)] are
    [list byte]. *)

From Stdlib Require Import ZArith Lia List Bool.
From Stdlib Require Import Strings.Byte Strings.String.
From Stdlib Require Floats.SpecFloat.
From stdpp Require Import base tactics option list numbers.

Local Open Scope Z_scope.

(** ** Machine integers *)

Definition u32 (x : Z) : Z := x mod 2 ^ 32.
Definition usize (x : Z) : Z := x mod 2 ^ 64.

Definition Z_of_byte (b : byte) : Z := Z.of_N (Byte.to_N b).

Definition byte_of_Z (z : Z) : byte :=
  match Byte.of_N (Z.to_N (z mod 256)) with
  | Some b => b
  | None => "000"%byte
  end.

#[global] Instance byte_eq_decision : EqDecision byte := Byte.byte_eq_dec.

(** [data[i]] for a [const uint8_t *data]; reading past the end of the
    buffer has no defined value, the model then yields 0. *)
Definition byte_at (data : list byte) (i : nat) : Z :=
  match data !! i with
  | Some b => Z_of_byte b
  | None => 0
  end.

(** ** Hasher: [calcHash] (MurmurHash2) *)

Module Hasher.

Definition m : Z := 0x5bd1e995.
Definition r : Z := 24.

(** One turn of the [while (len >= 4)] loop body, on the loaded word [k]. *)
Definition mix_block (h k : Z) : Z :=
  let k := u32 (k * m) in
  let k := Z.lxor k (Z.shiftr k r) in
  let k := u32 (k * m) in
  let h := u32 (h * m) in
  Z.lxor h k.

(** [data[3] << 24 | data[2] << 16 | data[1] << 8 | data[0]]; on x86 the
    unaligned 32-bit load reads the same little-endian word. *)
Definition load32 (data : list byte) : Z :=
  u32 (Z.lor (Z.lor (Z.lor (Z.shiftl (byte_at data 3) 24)
                           (Z.shiftl (byte_at data 2) 16))
                    (Z.shiftl (byte_at data 1) 8))
             (byte_at data 0)).

(** The [while (len >= 4)] loop: state is the cursor [data], the remaining
    [len] and the hash [h].  Each turn takes 4 off [len], so [len] turns
    are more than the loop can make. *)
Fixpoint calcHash_loop (fuel : nat) (data : list byte) (len h : Z)
  : list byte * Z * Z :=
  match fuel with
  | O => (data, len, h)
  | S fuel' =>
      if 4 <=? len then
        calcHash_loop fuel' (drop 4 data) (len - 4) (mix_block h (load32 data))
      else (data, len, h)
  end.

(** The [switch (len & 3)] with its fall-through cases. *)
Definition calcHash_tail (data : list byte) (len h : Z) : Z :=
  let sel := Z.land len 3 in
  let h := if sel =? 3 then Z.lxor h (u32 (Z.shiftl (byte_at data 2) 16)) else h in
  let h := if (sel =? 3) || (sel =? 2)
           then Z.lxor h (u32 (Z.shiftl (byte_at data 1) 8)) else h in
  if (sel =? 3) || (sel =? 2) || (sel =? 1)
  then u32 (Z.lxor h (byte_at data 0) * m)
  else h.

Definition calcHash_final (h : Z) : Z :=
  let h := Z.lxor h (Z.shiftr h 13) in
  let h := u32 (h * m) in
  Z.lxor h (Z.shiftr h 15).

Definition calcHash (key : list byte) (len : Z) : Z :=
  let h := u32 len in
  let '(data, len, h) := calcHash_loop (Z.to_nat len) key len h in
  calcHash_final (calcHash_tail data len h).

(** *** The algorithm in the words of the specification *)

Definition le_word (b0 b1 b2 b3 : byte) : Z :=
  Z_of_byte b0 + 2 ^ 8 * Z_of_byte b1 + 2 ^ 16 * Z_of_byte b2 + 2 ^ 24 * Z_of_byte b3.

Definition spec_block (h k : Z) : Z :=
  let k1 := (k * m) mod 2 ^ 32 in
  let k2 := Z.lxor k1 (k1 / 2 ^ 24) in
  let k3 := (k2 * m) mod 2 ^ 32 in
  Z.lxor ((h * m) mod 2 ^ 32) k3.

(** All full 4-byte blocks, then the 0-3 tail bytes folded in by
    byte-shifted XORs and one multiplication by [m]. *)
Fixpoint spec_blocks (s : list byte) (h : Z) : Z :=
  match s with
  | b0 :: b1 :: b2 :: b3 :: rest => spec_blocks rest (spec_block h (le_word b0 b1 b2 b3))
  | [b0; b1; b2] =>
      (Z.lxor (Z.lxor (Z.lxor h (Z_of_byte b2 * 2 ^ 16)) (Z_of_byte b1 * 2 ^ 8))
              (Z_of_byte b0) * m) mod 2 ^ 32
  | [b0; b1] =>
      (Z.lxor (Z.lxor h (Z_of_byte b1 * 2 ^ 8)) (Z_of_byte b0) * m) mod 2 ^ 32
  | [b0] => (Z.lxor h (Z_of_byte b0) * m) mod 2 ^ 32
  | [] => h
  end.

Definition spec_final (h : Z) : Z :=
  let h1 := Z.lxor h (h / 2 ^ 13) in
  let h2 := (h1 * m) mod 2 ^ 32 in
  Z.lxor h2 (h2 / 2 ^ 15).

Definition murmur2_spec (s : list byte) : Z :=
  spec_final (spec_blocks s (Z.of_nat (length s) mod 2 ^ 32)).

End Hasher.


(** ** IEEE 754 binary64 ([double]) *)

Module Double.

Import SpecFloat.

Definition prec : Z := 53.
Definition emax : Z := 1024.

(** Conversion of an unsigned integer to [double], rounding to nearest. *)
Definition of_Z (z : Z) : spec_float := binary_normalize prec emax z 0 false.

Definition mul : spec_float -> spec_float -> spec_float := SFmul prec emax.
Definition div : spec_float -> spec_float -> spec_float := SFdiv prec emax.

(** [a > b] on doubles. *)
Definition gtb (a b : spec_float) : bool := SFltb b a.

(** The cast [(size_t)x]: truncation toward zero; the cast has no defined
    result when the truncated value is not a [size_t]. *)
Definition to_size (x : spec_float) : option Z :=
  match x with
  | S754_zero _ => Some 0
  | S754_finite sg mant e =>
      let v := if 0 <=? e then Z.pos mant * 2 ^ e else Z.pos mant / 2 ^ (- e) in
      if sg then (if v =? 0 then Some 0 else None)
      else if v <? 2 ^ 64 then Some v else None
  | _ => None
  end.

(** The literal [0.8]: the double nearest to 8/10. *)
Definition lit_0_8 : spec_float := div (of_Z 8) (of_Z 10).

End Double.

(** ** Data model *)

Definition POOL_BITS : Z := 12.
Definition POOL_SIZE : Z := Z.shiftl 1 POOL_BITS.

Record StringEntry := mkEntry { hash : Z; vptr : Z }.

(** One cell of a pool: [None] is a byte of a [malloc]ed buffer that has
    not been written yet. *)
Abbreviation cell := (option byte).

Record StringTable := mkTable {
  table : list StringEntry;
  tabledim : Z;
  pools : list (list cell);
  npools : Z;
  nfill : Z;
  count : Z
}.

(** A non-null [StringValue *]: the address [&pools[sv_pool][sv_off]]. *)
Record svptr := mkPtr { sv_pool : Z; sv_off : Z }.

(** Modelled from the spec: the layout of [struct StringValue], declared in
    stringtable.h: one machine-word payload slot [ptrvalue], the [size_t]
    [length], then the [length + 1] bytes [lstring] with their terminator. *)
Definition off_ptrvalue : Z := 0.
(** Modelled from the spec: offset of [StringValue::length] (see above). *)
Definition off_length : Z := 8.
(** Modelled from the spec: offset of [StringValue::lstring] (see above). *)
Definition off_lstring : Z := 16.
(** Modelled from the spec: [sizeof(StringValue)], the record header. *)
Definition sizeof_StringValue : Z := 16.

Definition loadFactor : SpecFloat.spec_float := Double.lit_0_8.

(** ** Table state, threaded through every member function *)

Definition M (A : Type) : Type := StringTable -> option (A * StringTable).

Definition ret {A} (a : A) : M A := fun t => Some (a, t).

Definition bind {A B} (c : M A) (k : A -> M B) : M B :=
  fun t => match c t with
           | Some (a, t') => k a t'
           | None => None
           end.

(** No defined outcome: an access outside an array, or a loop that does not
    return. *)
Definition stuck {A} : M A := fun _ => None.

Definition gets {A} (f : StringTable -> A) : M A := fun t => Some (f t, t).

Definition modify (f : StringTable -> StringTable) : M unit := fun t => Some (tt, f t).

Notation "'let!' x ':=' c 'in' k" := (bind c (fun x => k))
  (at level 10, x pattern, c at level 100, k at level 200).

Definition set_table (f : list StringEntry -> list StringEntry) (t : StringTable) :=
  mkTable (f (table t)) (tabledim t) (pools t) (npools t) (nfill t) (count t).
Definition set_tabledim (v : Z) (t : StringTable) :=
  mkTable (table t) v (pools t) (npools t) (nfill t) (count t).
Definition set_pools (f : list (list cell) -> list (list cell)) (t : StringTable) :=
  mkTable (table t) (tabledim t) (f (pools t)) (npools t) (nfill t) (count t).
Definition set_npools (v : Z) (t : StringTable) :=
  mkTable (table t) (tabledim t) (pools t) v (nfill t) (count t).
Definition set_nfill (v : Z) (t : StringTable) :=
  mkTable (table t) (tabledim t) (pools t) (npools t) v (count t).
Definition set_count (v : Z) (t : StringTable) :=
  mkTable (table t) (tabledim t) (pools t) (npools t) (nfill t) v.

(** *** Memory *)

(** [mem.malloc(n)]: [n] bytes of indeterminate content. *)
Definition malloc (n : Z) : list cell := replicate (Z.to_nat n) None.

(** [mem.calloc(n, sizeof(StringEntry))]: [n] zeroed entries. *)
Definition calloc (n : Z) : list StringEntry := replicate (Z.to_nat n) (mkEntry 0 0).

Definition pool_read (p : list cell) (off n : Z) : option (list byte) :=
  if (0 <=? off) && (0 <=? n) && (off + n <=? Z.of_nat (length p))
  then mapM id (take (Z.to_nat n) (drop (Z.to_nat off) p))
  else None.

Definition pool_write (p : list cell) (off : Z) (bs : list byte) : option (list cell) :=
  if (0 <=? off) && (off + Z.of_nat (length bs) <=? Z.of_nat (length p))
  then Some (list_inserts (Z.to_nat off) (Some <$> bs) p)
  else None.

(** Read [n] bytes at [pools[idx] + off]. *)
Definition load (idx off n : Z) : M (list byte) := fun t =>
  if idx <? 0 then None else
  match pools t !! Z.to_nat idx with
  | Some p => match pool_read p off n with
              | Some bs => Some (bs, t)
              | None => None
              end
  | None => None
  end.

(** Write the bytes [bs] at [pools[idx] + off]. *)
Definition store (idx off : Z) (bs : list byte) : M unit := fun t =>
  if idx <? 0 then None else
  match pools t !! Z.to_nat idx with
  | Some p => match pool_write p off bs with
              | Some p' => Some (tt, set_pools (fun ps => <[Z.to_nat idx := p']> ps) t)
              | None => None
              end
  | None => None
  end.

(** A [size_t] (or a pointer) in memory: 8 bytes, little-endian. *)
Definition encode_usize (v : Z) : list byte :=
  map (fun i => byte_of_Z (Z.shiftr v (8 * Z.of_nat i))) (seq 0 8).

Definition decode_usize (bs : list byte) : Z :=
  fold_right (fun b acc => Z_of_byte b + 256 * acc) 0 bs.

(** [sv->ptrvalue = v] *)
Definition sv_set_ptrvalue (sv : svptr) (v : Z) : M unit :=
  store (sv_pool sv) (sv_off sv + off_ptrvalue) (encode_usize v).
(** [sv->length = v] *)
Definition sv_set_length (sv : svptr) (v : Z) : M unit :=
  store (sv_pool sv) (sv_off sv + off_length) (encode_usize v).
(** [sv->length] *)
Definition sv_length (sv : svptr) : M Z :=
  let! bs := load (sv_pool sv) (sv_off sv + off_length) 8 in
  ret (decode_usize bs).
(** [::memcpy(sv->lstring, s, length)] *)
Definition sv_memcpy_lstring (sv : svptr) (s : list byte) (length : Z) : M unit :=
  store (sv_pool sv) (sv_off sv + off_lstring) (take (Z.to_nat length) s).
(** [sv->lstring[i] = b] *)
Definition sv_set_lstring (sv : svptr) (i : Z) (b : byte) : M unit :=
  store (sv_pool sv) (sv_off sv + off_lstring + i) [b].
(** The [n] bytes at [sv->lstring]. *)
Definition sv_lstring (sv : svptr) (n : Z) : M (list byte) :=
  load (sv_pool sv) (sv_off sv + off_lstring) n.

(** [table[i]] *)
Definition table_get (i : Z) : M StringEntry := fun t =>
  if i <? 0 then None else
  match table t !! Z.to_nat i with
  | Some e => Some (e, t)
  | None => None
  end.

(** [table[i] = f(table[i])] *)
Definition table_upd (i : Z) (f : StringEntry -> StringEntry) : M unit :=
  let! e := table_get i in
  modify (set_table (fun tab => <[Z.to_nat i := f e]> tab)).

(** ** Pooled allocator and handle codec *)

(** [StringTable::allocValue], first part: the body of
    [if (!npools || nfill + nbytes > POOL_SIZE)]. *)
Definition alloc_new_pool (nbytes : Z) : M unit :=
  (* pools = realloc(pools, ++npools * sizeof(pools[0])); *)
  let! np := gets npools in
  let! _ := modify (set_npools (usize (np + 1))) in
  (* pools[npools - 1] = malloc(nbytes > POOL_SIZE ? nbytes : POOL_SIZE); *)
  let! _ := modify (set_pools (fun ps =>
              ps ++ [malloc (if POOL_SIZE <? nbytes then nbytes else POOL_SIZE)])) in
  modify (set_nfill 0).

(** [StringTable::allocValue], second part: the record is written at
    [&pools[npools - 1][nfill]] and the cursor [nfill] moves on. *)
Definition alloc_place (s : list byte) (length nbytes : Z) : M Z :=
  let! np := gets npools in
  let! nf := gets nfill in
  let sv := mkPtr (usize (np - 1)) nf in
  let! _ := sv_set_ptrvalue sv 0 in
  let! _ := sv_set_length sv length in
  let! _ := sv_memcpy_lstring sv s length in
  let! _ := sv_set_lstring sv length "000"%byte in
  let vp := u32 (Z.lor (usize (Z.shiftl np POOL_BITS)) nf) in
  let! _ := modify (set_nfill (usize (nf + usize (nbytes + Z.land (usize (- nbytes)) 7)))) in
  ret vp.

(** [StringTable::allocValue].  The string is passed as the byte list [s]
    together with its [length], as in the source. *)
Definition allocValue (s : list byte) (length : Z) : M Z :=
  let nbytes := usize (sizeof_StringValue + length + 1) in
  let! np := gets npools in
  let! nf := gets nfill in
  let! _ := if (np =? 0) || (POOL_SIZE <? usize (nf + nbytes))
            then alloc_new_pool nbytes else ret tt in
  alloc_place s length nbytes.

(** [StringTable::getValue]; [None] is the null pointer.  Forming
    [&pools[idx][off]] reads [pools[idx]]. *)
Definition getValue (vp : Z) : M (option svptr) :=
  if vp =? 0 then ret None else
  let idx := u32 (Z.shiftr vp POOL_BITS - 1) in
  let off := Z.land vp (POOL_SIZE - 1) in
  let! ps := gets pools in
  match ps !! Z.to_nat idx with
  | Some _ => ret (Some (mkPtr idx off))
  | None => stuck
  end.

(** ** Hash table *)

(** [nextpow2]: the loop either returns within 64 doublings or [res] has
    wrapped around to 0 and it never returns. *)
Fixpoint nextpow2_loop (fuel : nat) (res val : Z) : option Z :=
  match fuel with
  | O => None
  | S fuel' =>
      if res <? val then nextpow2_loop fuel' (usize (Z.shiftl res 1)) val
      else Some res
  end.

Definition nextpow2 (val : Z) : option Z := nextpow2_loop 66 1 val.

(** [StringTable::_init] *)
Definition _init (size : Z) : option StringTable :=
  match Double.to_size (Double.div (Double.of_Z size) loadFactor) with
  | None => None
  | Some v =>
      match nextpow2 v with
      | None => None
      | Some size =>
          let size := if size <? 32 then 32 else size in
          Some (mkTable (calloc size) size [] 0 0 0)
      end
  end.

(** The test of one probe of [findSlot] at slot [i], for a non-empty slot:
    [table[i].hash == hash && (sv = getValue(table[i].vptr))->length == length
     && ::memcmp(s, sv->lstring, length) == 0]. *)
Definition slot_matches (e : StringEntry) (h : Z) (s : list byte) (length : Z) : M bool :=
  if hash e =? h then
    let! sv := getValue (vptr e) in
    match sv with
    | None => stuck
    | Some sv =>
        let! len := sv_length sv in
        if len =? length then
          let! bs := sv_lstring sv length in
          ret (bool_decide (take (Z.to_nat length) s = bs))
        else ret false
    end
  else ret false.

(** The [for (;;)] loop of [StringTable::findSlot], with the loop variables
    [i] and [j]; it has no bound of its own, so the model counts turns. *)
Fixpoint findSlot_loop (fuel : nat) (h : Z) (s : list byte) (length : Z) (i j : Z) : M Z :=
  match fuel with
  | O => stuck
  | S fuel' =>
      let! e := table_get i in
      let! hit := if vptr e =? 0 then ret true else slot_matches e h s length in
      if (hit : bool) then ret i
      else
        let! dim := gets tabledim in
        findSlot_loop fuel' h s length (Z.land (usize (i + j)) (usize (dim - 1))) (usize (j + 1))
  end.

(** [StringTable::findSlot].  The probe sequence has visited every slot
    after [tabledim] turns (see [findSlot_loop_fuel]), so a search that has
    not returned by then never returns. *)
Definition findSlot (h : Z) (s : list byte) (length : Z) : M Z :=
  let! dim := gets tabledim in
  findSlot_loop (Z.to_nat dim) h s length (Z.land h (usize (dim - 1))) 1.

(** [StringTable::lookup] *)
Definition lookup (s : list byte) (length : Z) : M (option svptr) :=
  let h := Hasher.calcHash s length in
  let! i := findSlot h s length in
  let! e := table_get i in
  getValue (vptr e).

(** The body of the [for] loop of [StringTable::grow] on the old entry [se]. *)
Definition grow_step (se : StringEntry) : M unit :=
  if vptr se =? 0 then ret tt else
  let! sv := getValue (vptr se) in
  match sv with
  | None => stuck
  | Some sv =>
      let! len := sv_length sv in
      let! str := sv_lstring sv len in
      let! i := findSlot (hash se) str len in
      table_upd i (fun _ => se)
  end.

Fixpoint grow_loop (otab : list StringEntry) : M unit :=
  match otab with
  | [] => ret tt
  | se :: rest => let! _ := grow_step se in grow_loop rest
  end.

(** [StringTable::grow]; the loop runs over [otab[0 .. odim)]. *)
Definition grow : M unit :=
  let! odim := gets tabledim in
  let! otab := gets table in
  let! _ := modify (set_tabledim (usize (odim * 2))) in
  let! dim := gets tabledim in
  let! _ := modify (set_table (fun _ => calloc dim)) in
  grow_loop (take (Z.to_nat odim) otab).

(** [++count > tabledim * loadFactor] *)
Definition over_load : M bool :=
  let! c := gets count in
  let! _ := modify (set_count (usize (c + 1))) in
  let! c := gets count in
  let! dim := gets tabledim in
  ret (Double.gtb (Double.of_Z c) (Double.mul (Double.of_Z dim) loadFactor)).

(** The common tail of [update] and [insert]: claim slot [i] for [s]. *)
Definition claim_slot (h : Z) (s : list byte) (length : Z) (i : Z) : M Z :=
  let! over := over_load in
  let! i := if (over : bool)
            then let! _ := grow in findSlot h s length
            else ret i in
  let! _ := table_upd i (fun e => mkEntry h (vptr e)) in
  let! vp := allocValue s length in
  let! _ := table_upd i (fun e => mkEntry (hash e) vp) in
  ret i.

(** [StringTable::update] *)
Definition update (s : list byte) (length : Z) : M (option svptr) :=
  let h := Hasher.calcHash s length in
  let! i := findSlot h s length in
  let! e := table_get i in
  let! i := if vptr e =? 0 then claim_slot h s length i else ret i in
  let! e := table_get i in
  getValue (vptr e).

(** [StringTable::insert]; the null result says "already in table". *)
Definition insert (s : list byte) (length : Z) : M (option svptr) :=
  let h := Hasher.calcHash s length in
  let! i := findSlot h s length in
  let! e := table_get i in
  if negb (vptr e =? 0) then ret None else
  let! i := claim_slot h s length i in
  let! e := table_get i in
  getValue (vptr e).

(** ** Destruction *)

(** What [mem.free] is called on: a pool [pools[i]], the entry array
    [table], or the array [pools] of the pool pointers. *)
Inductive block := Pool (i : Z) | Table | PoolArray.

(** The loop [for (size_t i = 0; i < npools; ++i) mem.free(pools[i])] of
    the destructor, with the loop variable [i]; the result lists the blocks
    freed, in order.  The loop makes [npools + 1] tests at most; reading
    [pools[i]] outside the array has no defined outcome. *)
Fixpoint destructor_loop (fuel : nat) (i : Z) : M (list block) :=
  match fuel with
  | O => stuck
  | S fuel' =>
      let! np := gets npools in
      if i <? np then
        let! ps := gets pools in
        match ps !! Z.to_nat i with
        | Some _ =>
            let! rest := destructor_loop fuel' (usize (i + 1)) in
            ret (Pool i :: rest)
        | None => stuck
        end
      else ret []
  end.

(** [StringTable::~StringTable]; a null [table] or [pools] is the empty
    array, no element of which can be accessed. *)
Definition StringTable_destructor : M (list block) :=
  let! np := gets npools in
  let! freed := destructor_loop (S (Z.to_nat np)) 0 in
  (* mem.free(table); mem.free(pools); *)
  let! _ := modify (set_table (fun _ => [])) in
  let! _ := modify (set_pools (fun _ => [])) in
  ret (freed ++ [Table; PoolArray]).

(** ** The table seen as an array of (hash, key) slots

    The notions in which the properties of the table are stated: which
    string a handle denotes in the pools, and the array of keys that the
    entries denote. *)

(** The pool index and the offset packed in a handle, as [getValue]
    unpacks them. *)
Definition decode_pool (vp : Z) : Z := u32 (Z.shiftr vp POOL_BITS - 1).
Definition decode_off (vp : Z) : Z := Z.land vp (POOL_SIZE - 1).

(** The handle [vp] denotes a record for the string [s]: the record lies in
    the part of the pools that the allocator has handed out, and holds the
    length of [s], its bytes and the terminator. *)
Definition record_at (t : StringTable) (vp : Z) (s : list byte) : Prop :=
  vp ≠ 0 ∧ Z.of_nat (length s) < 2 ^ 62 ∧
  ∃ p, pools t !! Z.to_nat (decode_pool vp) = Some p ∧
       pool_read p (decode_off vp + off_length) 8
         = Some (encode_usize (Z.of_nat (length s))) ∧
       pool_read p (decode_off vp + off_lstring) (Z.of_nat (length s)) = Some s ∧
       pool_read p (decode_off vp + off_lstring + Z.of_nat (length s)) 1
         = Some ["000"%byte] ∧
       (decode_pool vp + 1 < npools t ∨
        (decode_pool vp + 1 = npools t ∧
         decode_off vp + sizeof_StringValue + Z.of_nat (length s) + 1 ≤ nfill t)).

(** What a slot of the table holds: nothing, or a key with its hash. *)
Abbreviation slot := (option (Z * list byte)).

Definition slot_of (t : StringTable) (e : StringEntry) (c : slot) : Prop :=
  match c with
  | None => vptr e = 0
  | Some (h, s) => hash e = h ∧ record_at t (vptr e) s
  end.

Definition abstracts (t : StringTable) (sl : list slot) : Prop :=
  Forall2 (slot_of t) (table t) sl.

(** The test of [findSlot] on a slot. *)
Definition accepts (c : slot) (h : Z) (s : list byte) : bool :=
  match c with
  | None => true
  | Some (h', s') => bool_decide (h' = h ∧ s' = s)
  end.

(** The probe loop of [findSlot] on the array of slots. *)
Fixpoint probe (fuel : nat) (dim : Z) (sl : list slot) (h : Z) (s : list byte)
    (i j : Z) : option Z :=
  match fuel with
  | O => None
  | S fuel' =>
      match sl !! Z.to_nat i with
      | None => None
      | Some c =>
          if accepts c h s then Some i
          else probe fuel' dim sl h s (Z.land (i + j) (dim - 1)) (j + 1)
      end
  end.

Definition find (dim : Z) (sl : list slot) (h : Z) (s : list byte) : option Z :=
  probe (Z.to_nat dim) dim sl h s (Z.land h (dim - 1)) 1.

(** The [n]-th slot of the probe sequence that starts at hash [h]:
    [h] plus the [n]-th triangular number, modulo the capacity. *)
Definition probe_pos (dim h : Z) (n : Z) : Z := (h + n * (n + 1) / 2) mod dim.

Definition occupied (sl : list slot) : nat := length (filter is_Some sl).

(** The hash-table invariant: the entries denote the slots [sl], the
    capacity is a power of two, and every key is where [findSlot] finds it. *)
Record table_ok (t : StringTable) (sl : list slot) : Prop := mk_table_ok {
  ok_abs : abstracts t sl;
  ok_dim : ∃ k, 5 ≤ k ≤ 51 ∧ tabledim t = 2 ^ k;
  ok_len : Z.of_nat (length sl) = tabledim t;
  ok_find : ∀ (p : nat) h s, sl !! p = Some (Some (h, s)) →
      h = Hasher.calcHash s (Z.of_nat (length s)) ∧
      find (tabledim t) sl h s = Some (Z.of_nat p)
}.

(** The allocator invariant. *)
Record alloc_ok (t : StringTable) : Prop := mk_alloc_ok {
  ok_npools : npools t = Z.of_nat (length (pools t));
  ok_handles : npools t < 2 ^ 20;
  ok_pool_size : Forall (fun p : list cell => POOL_SIZE ≤ Z.of_nat (length p)) (pools t);
  ok_nfill : 0 ≤ nfill t < 2 ^ 63;
  ok_cursor : ∀ p, pools t !! Z.to_nat (npools t - 1) = Some p →
      Z.of_nat (length p) = POOL_SIZE ∨ Z.of_nat (length p) ≤ nfill t
}.

Definition wf (t : StringTable) : Prop :=
  ∃ sl, table_ok t sl ∧ alloc_ok t ∧
        Z.of_nat (occupied sl) = count t ∧ 5 * count t ≤ 4 * tabledim t.

(** The resources an operation on the key [s] may need: room for one more
    pool in the 32-bit handles (20 bits of a handle hold the pool index plus
    one), for a doubled entry array, and a key that fits in memory. *)
Definition in_limits (t : StringTable) (s : list byte) : Prop :=
  npools t + 1 < 2 ^ 20 ∧ tabledim t ≤ 2 ^ 50 ∧ Z.of_nat (length s) < 2 ^ 62.

(** The states of a table in use: constructed by [_init], then operated on
    by [lookup], [insert] and [update]. *)
Inductive reachable : StringTable → Prop :=
| reach_init size t :
    0 ≤ size < 2 ^ 50 →
    _init size = Some t → reachable t
| reach_lookup t s r t' :
    reachable t →
    lookup s (Z.of_nat (length s)) t = Some (r, t') → reachable t'
| reach_insert t s r t' :
    reachable t → in_limits t s →
    insert s (Z.of_nat (length s)) t = Some (r, t') → reachable t'
| reach_update t s r t' :
    reachable t → in_limits t s →
    update s (Z.of_nat (length s)) t = Some (r, t') → reachable t'.

(** The keys of a table in use: [history t ks] says that [t] results from
    [_init] and a sequence of operations, and that [ks] lists the keys that
    its [insert]s and [update]s were given, each once, the latest first. *)
Inductive history : StringTable → list (list byte) → Prop :=
| hist_init size t :
    0 ≤ size < 2 ^ 50 →
    _init size = Some t → history t []
| hist_lookup t ks s r t' :
    history t ks →
    lookup s (Z.of_nat (length s)) t = Some (r, t') → history t' ks
| hist_insert t ks s r t' :
    history t ks → in_limits t s →
    insert s (Z.of_nat (length s)) t = Some (r, t') →
    history t' (if bool_decide (s ∈ ks) then ks else s :: ks)
| hist_update t ks s r t' :
    history t ks → in_limits t s →
    update s (Z.of_nat (length s)) t = Some (r, t') →
    history t' (if bool_decide (s ∈ ks) then ks else s :: ks).


(** What a caller reads through a record pointer: [sv->length], the bytes
    [sv->lstring[0 .. length)] and the terminator [sv->lstring[length]]. *)
Definition read_record (sv : svptr) : M (Z * list byte * list byte) :=
  let! len := sv_length sv in
  let! bs := sv_lstring sv len in
  let! z := load (sv_pool sv) (sv_off sv + off_lstring + len) 1 in
  ret (len, bs, z).

(** The bytes of a new record for [s]: the zeroed payload slot, the
    length, the bytes of [s] and the terminator. *)
Definition record_bytes (s : list byte) : list byte :=
  encode_usize 0 ++ encode_usize (Z.of_nat (length s)) ++ s ++ ["000"%byte].

(** [allocValue] opens a new pool for a record of [required] bytes. *)
Definition alloc_fresh (t : StringTable) (required : Z) : bool :=
  (npools t =? 0) || (POOL_SIZE <? nfill t + required).

(** The pools with the bytes [bs] written at [pools[idx] + off]. *)
Definition write_at (ps : list (list cell)) (idx off : Z) (bs : list byte) :=
  match ps !! Z.to_nat idx with
  | Some p => <[Z.to_nat idx := list_inserts (Z.to_nat off) (Some <$> bs) p]> ps
  | None => ps
  end.

(** The handle and the state that [allocValue] produces for [s]. *)
Definition alloc_result (s : list byte) (t : StringTable) : Z * StringTable :=
  let required := sizeof_StringValue + Z.of_nat (length s) + 1 in
  let fresh := alloc_fresh t required in
  let np := if fresh then npools t + 1 else npools t in
  let off := if fresh then 0 else nfill t in
  let ps := if fresh then pools t ++ [malloc (Z.max required POOL_SIZE)] else pools t in
  (np * POOL_SIZE + off,
   mkTable (table t) (tabledim t) (write_at ps (np - 1) off (record_bytes s)) np
           (off + required + (- required) mod 8) (count t)).

(** The entry [e] of the table holds the key [key] (a string and its hash). *)
Definition holds (t : StringTable) (sl : list slot) (e : StringEntry)
    (key : Z * list byte) : Prop :=
  ∃ i : nat, table t !! i = Some e ∧ sl !! i = Some (Some key).

(** The pointer that [getValue] computes from a handle. *)
Definition ptr_of (vp : Z) : option svptr :=
  if vp =? 0 then None else Some (mkPtr (decode_pool vp) (decode_off vp)).


(** A computation that does not change the table state. *)
Definition readonly {A} (c : M A) : Prop :=
  ∀ t a t', c t = Some (a, t') → t' = t.

(** A table to run the operations on: [_init(4)], and some keys. *)
Definition demo_table : StringTable := mkTable (calloc 32) 32 [] 0 0 0.
Definition key_foo : list byte := ["f"; "o"; "o"]%byte.
Definition key_bar : list byte := ["b"; "a"; "r"]%byte.

(** [demo_table] after [insert] of [key_foo]: the entry is in slot
    [hash & 31 = 21], the record at the start of the first pool. *)
Definition demo_table_foo : StringTable :=
  mkTable (<[21%nat := mkEntry 2414502773 4096]> (calloc 32)) 32
          [list_inserts 0 (Some <$> record_bytes key_foo) (malloc 4096)] 1 24 1.

(** [insert] of each key in turn. *)
Fixpoint insert_all (keys : list (list byte)) (t : StringTable) : option StringTable :=
  match keys with
  | [] => Some t
  | key :: keys' =>
      match insert key (Z.of_nat (length key)) t with
      | Some (_, t') => insert_all keys' t'
      | None => None
      end
  end.

(** The [n] two-byte keys "0x", "1x", ... *)
Definition demo_keys (n : nat) : list (list byte) :=
  map (fun i => [byte_of_Z (48 + Z.of_nat i); "x"%byte]) (seq 0 n).

(** The scenario of the specification: [foo] and [bar] are inserted into
    [_init(4)], [foo] is inserted again and updated, then [n] more keys are
    inserted; the result lists what the calls returned and the count and
    capacity after the first two and after all the insertions. *)
Definition scenario (n : nat) :=
  match insert_all [key_foo; key_bar] demo_table with
  | None => None
  | Some t2 =>
      match insert_all (demo_keys n) t2 with
      | None => None
      | Some t3 =>
          Some (count t2, tabledim t2,
                fst <$> insert key_foo 3 t2,
                fst <$> update key_foo 3 t2,
                fst <$> read_record (mkPtr 0 0) t2,
                (count t3, tabledim t3, npools t3, nfill t3),
                fst <$> lookup key_foo 3 t3,
                fst <$> lookup key_bar 3 t3,
                fst <$> lookup [] 0 t3)
      end
  end.

(** * Proofs *)

(** [lia] with the equations of the divisions and remainders in the goal. *)
Ltac lia_mod := Z.to_euclidean_division_equations; lia.

(** ** Bytes and machine words *)

Lemma Z_of_byte_range b : 0 ≤ Z_of_byte b < 256.
Proof. unfold Z_of_byte. pose proof (Byte.to_N_bounded b). lia. Qed.

Lemma Z_of_byte_of_Z z : Z_of_byte (byte_of_Z z) = z mod 256.
Proof.
  unfold byte_of_Z, Z_of_byte.
  pose proof (Z.mod_pos_bound z 256 ltac:(lia)) as Hb.
  destruct (Byte.of_N (Z.to_N (z mod 256))) as [b|] eqn:E.
  - apply Byte.to_of_N in E. rewrite E. lia.
  - apply Byte.of_N_None_iff in E. lia.
Qed.

Lemma lor_shiftl_add a b n :
  0 ≤ n → 0 ≤ b < 2 ^ n → Z.lor (Z.shiftl a n) b = a * 2 ^ n + b.
Proof.
  intros Hn Hb. rewrite Z.shiftl_mul_pow2 by done.
  rewrite <- Z.lxor_lor, <- Z.add_nocarry_lxor; try done.
  all: apply Z.bits_inj'; intros i Hi; rewrite Z.land_spec, Z.bits_0.
  all: destruct (Z.lt_ge_cases i n).
  all: try (rewrite Z.mul_pow2_bits_low by lia; done).
  all: rewrite <- (Z.mod_small b (2 ^ n)) by done.
  all: rewrite Z.mod_pow2_bits_high by lia; apply andb_false_r.
Qed.

Lemma byte_at_0 b l : byte_at (b :: l) 0 = Z_of_byte b.
Proof. done. Qed.

Lemma byte_at_S b l n : byte_at (b :: l) (S n) = byte_at l n.
Proof. done. Qed.

Lemma byte_at_nil n : byte_at [] n = 0.
Proof. by destruct n. Qed.

(** ** Hasher *)

Module HasherFacts.
Import Hasher.

Lemma load32_block b0 b1 b2 b3 rest :
  load32 (b0 :: b1 :: b2 :: b3 :: rest) = le_word b0 b1 b2 b3.
Proof.
  unfold load32, le_word, u32. rewrite !byte_at_S, !byte_at_0.
  pose proof (Z_of_byte_range b0). pose proof (Z_of_byte_range b1).
  pose proof (Z_of_byte_range b2). pose proof (Z_of_byte_range b3).
  set (x0 := Z_of_byte b0) in *. set (x1 := Z_of_byte b1) in *.
  set (x2 := Z_of_byte b2) in *. set (x3 := Z_of_byte b3) in *.
  replace (Z.lor (Z.lor (Z.lor (Z.shiftl x3 24) (Z.shiftl x2 16)) (Z.shiftl x1 8)) x0)
    with (Z.lor (Z.shiftl (Z.lor (Z.shiftl (Z.lor (Z.shiftl x3 8) x2) 8) x1) 8) x0).
  - rewrite !lor_shiftl_add by lia. rewrite Z.mod_small; lia.
  - rewrite !Z.shiftl_lor, !Z.shiftl_shiftl by lia. done.
Qed.

Lemma mix_block_spec h k : mix_block h k = spec_block h k.
Proof. unfold mix_block, spec_block, u32, r. by rewrite Z.shiftr_div_pow2. Qed.

Lemma u32_shiftl_byte b n :
  0 ≤ n ≤ 24 → u32 (Z.shiftl (Z_of_byte b) n) = Z_of_byte b * 2 ^ n.
Proof.
  intros Hn. pose proof (Z_of_byte_range b).
  unfold u32. rewrite Z.shiftl_mul_pow2 by lia. apply Z.mod_small.
  assert (2 ^ n ≤ 2 ^ 24) by (apply Z.pow_le_mono_r; lia). nia.
Qed.

Lemma calcHash_loop_short fuel data len h :
  len < 4 → calcHash_loop fuel data len h = (data, len, h).
Proof. intros Hlen. destruct fuel; [done|]. simpl. by destruct (Z.leb_spec 4 len); [lia|]. Qed.

(** The loop and the [switch] read the first [n] bytes of the buffer and
    nothing else. *)
Lemma calcHash_loop_spec fuel : ∀ (s : list byte) (n : nat) h,
  (n ≤ length s)%nat → (n ≤ fuel)%nat →
  let '(data, len, h') := calcHash_loop fuel s (Z.of_nat n) h in
  calcHash_tail data len h' = spec_blocks (take n s) h.
Proof.
  induction fuel as [|fuel IH]; intros s n h Hn Hfuel.
  - assert (n = 0%nat) as -> by lia. by destruct s.
  - destruct n as [|[|[|[|n]]]].
    + rewrite calcHash_loop_short by lia. by destruct s.
    + destruct s as [|b0 s]; [simpl in Hn; lia|].
      rewrite calcHash_loop_short by lia. unfold calcHash_tail.
      change (Z.land (Z.of_nat 1) 3) with 1.
      rewrite byte_at_0. cbn [take]. by rewrite take_0.
    + destruct s as [|b0 [|b1 s]]; try (simpl in Hn; lia).
      rewrite calcHash_loop_short by lia. unfold calcHash_tail.
      change (Z.land (Z.of_nat 2) 3) with 2.
      rewrite !byte_at_S, !byte_at_0, (u32_shiftl_byte b1 8) by lia.
      cbn [take]. by rewrite take_0.
    + destruct s as [|b0 [|b1 [|b2 s]]]; try (simpl in Hn; lia).
      rewrite calcHash_loop_short by lia. unfold calcHash_tail.
      change (Z.land (Z.of_nat 3) 3) with 3.
      rewrite !byte_at_S, !byte_at_0, (u32_shiftl_byte b1 8),
        (u32_shiftl_byte b2 16) by lia.
      cbn [take]. by rewrite take_0.
    + destruct s as [|b0 [|b1 [|b2 [|b3 rest]]]]; try (simpl in Hn; lia).
      cbn [calcHash_loop].
      destruct (Z.leb_spec 4 (Z.of_nat (S (S (S (S n)))))) as [_|Hlt]; [|lia].
      replace (Z.of_nat (S (S (S (S n)))) - 4) with (Z.of_nat n) by lia.
      rewrite load32_block, mix_block_spec. cbn [drop take spec_blocks].
      apply IH; simpl in Hn; lia.
Qed.

Lemma calcHash_final_spec h : calcHash_final h = spec_final h.
Proof. unfold calcHash_final, spec_final, u32. by rewrite !Z.shiftr_div_pow2. Qed.

(** On a buffer of at least [n] bytes, [calcHash] with length [n] is the
    specified hash of the first [n] bytes. *)
Lemma calcHash_prefix (s : list byte) (n : nat) :
  (n ≤ length s)%nat → calcHash s (Z.of_nat n) = murmur2_spec (take n s).
Proof.
  intros Hn. unfold calcHash, murmur2_spec.
  pose proof (calcHash_loop_spec (Z.to_nat (Z.of_nat n)) s n
                (u32 (Z.of_nat n)) Hn ltac:(lia)) as H.
  destruct (calcHash_loop _ _ _ _) as [[data len] h'].
  rewrite calcHash_final_spec, H, length_take. unfold u32.
  by replace (n `min` length s)%nat with n by lia.
Qed.

Lemma calcHash_refines (s : list byte) :
  calcHash s (Z.of_nat (length s)) = murmur2_spec s.
Proof. rewrite calcHash_prefix by lia. by rewrite firstn_all. Qed.

Lemma lxor_bound a b n : 0 < n → 0 ≤ a < 2 ^ n → 0 ≤ b < 2 ^ n → 0 ≤ Z.lxor a b < 2 ^ n.
Proof.
  intros Hn Ha Hb. split; [apply Z.lxor_nonneg; lia|].
  destruct (Z.eq_dec (Z.lxor a b) 0) as [->|Hne]; [lia|].
  apply Z.log2_lt_pow2; [pose proof (Z.lxor_nonneg a b); lia|].
  eapply Z.le_lt_trans; [apply Z.log2_lxor; lia|].
  apply Z.max_lub_lt.
  - destruct (Z.eq_dec a 0) as [->|]; [simpl; lia|]. apply Z.log2_lt_pow2; lia.
  - destruct (Z.eq_dec b 0) as [->|]; [simpl; lia|]. apply Z.log2_lt_pow2; lia.
Qed.

Lemma shiftr_bound a k n : 0 ≤ k → 0 ≤ a < 2 ^ n → 0 ≤ Z.shiftr a k < 2 ^ n.
Proof.
  intros Hk Ha. rewrite Z.shiftr_div_pow2 by done.
  assert (0 < 2 ^ k) by (apply Z.pow_pos_nonneg; lia).
  split; [apply Z.div_pos; lia|].
  eapply Z.le_lt_trans; [apply Z.div_le_upper_bound; [lia|]|apply Ha]. nia.
Qed.

Lemma calcHash_range key len : 0 ≤ calcHash key len < 2 ^ 32.
Proof.
  unfold calcHash. destruct (calcHash_loop _ _ _ _) as [[data l] h].
  unfold calcHash_final.
  set (x := u32 _).
  assert (0 ≤ x < 2 ^ 32) by (apply Z.mod_pos_bound; lia).
  apply lxor_bound; [lia|done|]. apply shiftr_bound; [lia|done].
Qed.

End HasherFacts.

(** ** The probe sequence *)

Lemma tri_even n : n * (n + 1) = 2 * (n * (n + 1) / 2).
Proof.
  assert (H : (n * (n + 1)) mod 2 = 0).
  { rewrite Z.mul_mod by lia.
    destruct (Z.mod_pos_bound n 2 ltac:(lia)) as [? ?].
    assert (Hc : n mod 2 = 0 ∨ n mod 2 = 1) by lia.
    rewrite <- Z.add_mod_idemp_l by lia.
    destruct Hc as [-> | ->]; done. }
  pose proof (Z.div_mod (n * (n + 1)) 2 ltac:(lia)). lia.
Qed.

Lemma tri_succ n : (n + 1) * (n + 1 + 1) / 2 = n * (n + 1) / 2 + (n + 1).
Proof.
  replace ((n + 1) * (n + 1 + 1)) with (n * (n + 1) + (n + 1) * 2) by lia.
  by rewrite Z.div_add by lia.
Qed.

Lemma pow2_divide_odd n : 0 ≤ n → ∀ x y,
  y mod 2 = 1 → (2 ^ n | x * y) → (2 ^ n | x).
Proof.
  intros Hn. pattern n. apply natlike_ind; [| |done]; clear n Hn.
  - intros x y _ _. apply Z.divide_1_l.
  - intros n Hn IH x y Hy [q Hq]. rewrite Z.pow_succ_r in * by done.
    assert (Hx : x mod 2 = 0).
    { assert (H : (x * y) mod 2 = 0) by (rewrite Hq; apply Z.mod_divide; [lia|]; exists (q * 2 ^ n); lia).
      rewrite Z.mul_mod, Hy, Z.mul_1_r, Z.mod_mod in H by lia. done. }
    pose proof (Z.div_mod x 2 ltac:(lia)) as Hdm. rewrite Hx in Hdm.
    destruct (IH (x / 2) y Hy) as [r Hr].
    + exists q. nia.
    + exists r. lia.
Qed.

Section Probing.
Variables (k dim : Z).
Hypothesis Hk : 0 ≤ k.
Hypothesis Hdim : dim = 2 ^ k.

Lemma dim_pos : 0 < dim.
Proof. subst dim. by apply Z.pow_pos_nonneg. Qed.

Lemma land_dim x : Z.land x (dim - 1) = x mod dim.
Proof.
  subst dim. rewrite <- Z.land_ones by done. f_equal.
  rewrite Z.ones_equiv. lia.
Qed.

Lemma probe_pos_range h n : 0 ≤ probe_pos dim h n < dim.
Proof. apply Z.mod_pos_bound, dim_pos. Qed.

Lemma probe_pos_0 h : Z.land h (dim - 1) = probe_pos dim h 0.
Proof. rewrite land_dim. unfold probe_pos. f_equal. change (0 * (0 + 1) / 2) with 0. lia. Qed.

Lemma probe_pos_succ h n :
  Z.land (probe_pos dim h n + (n + 1)) (dim - 1) = probe_pos dim h (n + 1).
Proof.
  rewrite land_dim. unfold probe_pos.
  rewrite Z.add_mod_idemp_l by (pose proof dim_pos; lia).
  f_equal. rewrite tri_succ. lia.
Qed.

(** The first [dim] slots of a probe sequence are pairwise distinct. *)
Lemma probe_pos_inj h a b :
  0 ≤ a → a < b → b < dim → probe_pos dim h a ≠ probe_pos dim h b.
Proof.
  intros Ha Hab Hb Heq. pose proof dim_pos as Hpos.
  unfold probe_pos in Heq.
  set (ta := a * (a + 1) / 2) in *. set (tb := b * (b + 1) / 2) in *.
  assert (Hdiv : (dim | tb - ta)).
  { apply Z.mod_divide; [lia|].
    replace (tb - ta) with ((h + tb) - (h + ta)) by lia.
    rewrite Zminus_mod, Heq, Z.sub_diag. by apply Z.mod_0_l; lia. }
  assert (H2k : 2 ^ (k + 1) = 2 * dim).
  { rewrite Z.pow_add_r by lia. change (2 ^ 1) with 2. lia. }
  assert (H2 : (2 ^ (k + 1) | (b - a) * (a + b + 1))).
  { replace ((b - a) * (a + b + 1)) with (2 * (tb - ta))
      by (pose proof (tri_even a); pose proof (tri_even b); subst ta tb; lia).
    rewrite H2k. by apply Z.mul_divide_mono_l. }
  destruct (Z.mod_pos_bound (b - a) 2 ltac:(lia)) as [? ?].
  assert (Hc : (b - a) mod 2 = 1 ∨ (b - a) mod 2 = 0) by lia.
  destruct Hc as [Hodd | Hev].
  - assert (Hd : (2 ^ (k + 1) | a + b + 1)).
    { apply pow2_divide_odd with (b - a); [lia|done|by rewrite Z.mul_comm]. }
    apply Z.divide_pos_le in Hd; clear - Hd H2k Ha Hab Hb; rewrite ?H2k in *; lia.
  - assert (Hodd : (a + b + 1) mod 2 = 1) by (clear - Hev; lia_mod).
    assert (Hd : (2 ^ (k + 1) | b - a)).
    { apply pow2_divide_odd with (a + b + 1); [lia|done|done]. }
    apply Z.divide_pos_le in Hd; clear - Hd H2k Ha Hab Hb; rewrite ?H2k in *; lia.
Qed.

(** Hence they are all the slots. *)
Lemma probe_pos_surj h p :
  0 ≤ p < dim → ∃ n, 0 ≤ n < dim ∧ probe_pos dim h n = p.
Proof.
  intros Hp. pose proof dim_pos as Hpos.
  set (ns := map Z.of_nat (seq 0 (Z.to_nat dim))).
  assert (Hns : ∀ n, In n ns ↔ 0 ≤ n < dim).
  { intros n. unfold ns. rewrite in_map_iff. split.
    - intros (x & <- & Hx%in_seq). lia.
    - intros Hn. exists (Z.to_nat n). rewrite in_seq. lia. }
  assert (Hnd : List.NoDup ns).
  { unfold ns. apply Finite.Injective_map_NoDup; [|apply seq_NoDup].
    intros x y. lia. }
  assert (Hl : List.NoDup (map (probe_pos dim h) ns)).
  { apply Finite.Injective_map_NoDup_in; [|done].
    intros x y Hx%Hns Hy%Hns Heq.
    destruct (Z.lt_trichotomy x y) as [Hlt | [-> | Hlt]]; [|done|].
    - by apply (probe_pos_inj h) in Hlt; try lia.
    - by apply (probe_pos_inj h) in Hlt; try lia. }
  assert (Hin : In p (map (probe_pos dim h) ns)).
  { apply (NoDup_length_incl (l':=ns) Hl); [by rewrite length_map| |by apply Hns].
    intros q (n & <- & _)%in_map_iff. apply Hns, probe_pos_range. }
  apply in_map_iff in Hin as (n & <- & Hn%Hns). eauto.
Qed.

End Probing.

(** ** The probe loop on an array of slots *)

Section ProbeLoop.
Variables (k dim : Z) (sl : list slot).
Hypothesis Hk : 0 ≤ k.
Hypothesis Hdim : dim = 2 ^ k.
Hypothesis Hlen : Z.of_nat (length sl) = dim.

Let pos := probe_pos dim.

Lemma slot_at_pos h n : ∃ c, sl !! Z.to_nat (pos h n) = Some c.
Proof.
  destruct (sl !! Z.to_nat (pos h n)) as [c|] eqn:E; [eauto|].
  apply lookup_ge_None in E.
  pose proof (probe_pos_range k dim Hk Hdim h n). unfold pos in *. lia.
Qed.

Lemma probe_step fuel h s n :
  probe (S fuel) dim sl h s (pos h n) (n + 1) =
  match sl !! Z.to_nat (pos h n) with
  | Some c => if accepts c h s then Some (pos h n)
              else probe fuel dim sl h s (pos h (n + 1)) (n + 1 + 1)
  | None => None
  end.
Proof.
  simpl. destruct (sl !! _); [|done]. destruct (accepts _ _ _); [done|].
  unfold pos. by rewrite (probe_pos_succ k dim Hk Hdim).
Qed.

(** The loop returns the first slot of the sequence that passes the test. *)
Lemma probe_hit h s fuel : ∀ n m,
  n ≤ m → m < n + Z.of_nat fuel →
  (∀ m' c, n ≤ m' < m → sl !! Z.to_nat (pos h m') = Some c → accepts c h s = false) →
  (∃ c, sl !! Z.to_nat (pos h m) = Some c ∧ accepts c h s = true) →
  probe fuel dim sl h s (pos h n) (n + 1) = Some (pos h m).
Proof.
  induction fuel as [|fuel IH]; intros n m Hnm Hm Hrej (c & Hc & Hacc); [lia|].
  rewrite probe_step.
  destruct (Z.eq_dec n m) as [->|Hne].
  - by rewrite Hc, Hacc.
  - destruct (slot_at_pos h n) as [c' Hc']. rewrite Hc'.
    rewrite (Hrej n c') by (done || lia).
    apply IH; [lia|lia| |eauto].
    intros m' c'' Hm'. apply Hrej. lia.
Qed.

Lemma probe_inv h s fuel : ∀ n p,
  probe fuel dim sl h s (pos h n) (n + 1) = Some p →
  ∃ m, n ≤ m < n + Z.of_nat fuel ∧ p = pos h m ∧
    (∀ m' c, n ≤ m' < m → sl !! Z.to_nat (pos h m') = Some c → accepts c h s = false) ∧
    (∃ c, sl !! Z.to_nat (pos h m) = Some c ∧ accepts c h s = true).
Proof.
  induction fuel as [|fuel IH]; intros n p Hp; [done|].
  rewrite probe_step in Hp.
  destruct (sl !! Z.to_nat (pos h n)) as [c|] eqn:Hc; [|done].
  destruct (accepts c h s) eqn:Hacc.
  - injection Hp as <-. exists n. split; [lia|]. split; [done|].
    split; [intros; lia | eauto].
  - apply IH in Hp as (m & Hm & -> & Hrej & Hhit).
    exists m. split; [lia|]. split; [done|]. split; [|done].
    intros m' c' Hm' Hc'. destruct (Z.eq_dec m' n) as [->|].
    + congruence.
    + apply (Hrej m'); [lia|done].
Qed.

Lemma probe_total h s fuel : ∀ n m c,
  n ≤ m → m < n + Z.of_nat fuel →
  sl !! Z.to_nat (pos h m) = Some c → accepts c h s = true →
  ∃ p, probe fuel dim sl h s (pos h n) (n + 1) = Some p.
Proof.
  induction fuel as [|fuel IH]; intros n m c Hnm Hm Hc Hacc; [lia|].
  rewrite probe_step.
  destruct (slot_at_pos h n) as [c' Hc']. rewrite Hc'.
  destruct (accepts c' h s) eqn:Hacc'; [eauto|].
  apply (IH (n + 1) m c); try done; [|lia].
  destruct (Z.eq_dec n m) as [->|]; [congruence | lia].
Qed.


Lemma find_unfold h s : find dim sl h s = probe (Z.to_nat dim) dim sl h s (pos h 0) (0 + 1).
Proof. unfold find, pos. by rewrite (probe_pos_0 k dim Hk Hdim). Qed.

(** [findSlot] returns whenever some slot passes its test, in particular
    whenever some slot is empty. *)
Lemma find_total h s c :
  c ∈ sl → accepts c h s = true → ∃ p, find dim sl h s = Some p.
Proof.
  intros [i Hi]%list_elem_of_lookup_1 Hacc. rewrite find_unfold.
  pose proof (lookup_lt_Some _ _ _ Hi) as Hlt.
  destruct (probe_pos_surj k dim Hk Hdim h (Z.of_nat i)) as (n & Hn & Hpos); [lia|].
  apply (probe_total h s _ 0 n c); [lia|lia| |done].
  unfold pos. rewrite Hpos. by rewrite Nat2Z.id.
Qed.


Lemma find_inv h s p :
  find dim sl h s = Some p →
  0 ≤ p < dim ∧
  ∃ m, 0 ≤ m < dim ∧ p = pos h m ∧
    (∀ m' c, 0 ≤ m' < m → sl !! Z.to_nat (pos h m') = Some c → accepts c h s = false) ∧
    (∃ c, sl !! Z.to_nat p = Some c ∧ accepts c h s = true).
Proof.
  rewrite find_unfold. intros (m & Hm & -> & Hrej & Hhit)%probe_inv.
  split; [apply (probe_pos_range k dim Hk Hdim)|].
  exists m. pose proof (dim_pos k dim Hk Hdim). split; [lia|done].
Qed.

Lemma find_hit h s m c :
  0 ≤ m < dim →
  (∀ m' c, 0 ≤ m' < m → sl !! Z.to_nat (pos h m') = Some c → accepts c h s = false) →
  sl !! Z.to_nat (pos h m) = Some c → accepts c h s = true →
  find dim sl h s = Some (pos h m).
Proof.
  intros Hm Hrej Hc Hacc. rewrite find_unfold.
  apply probe_hit; [lia|lia|done|eauto].
Qed.

End ProbeLoop.

Section ProbeUpdate.
Variables (k dim : Z) (sl : list slot).
Hypothesis Hk : 0 ≤ k.
Hypothesis Hdim : dim = 2 ^ k.
Hypothesis Hlen : Z.of_nat (length sl) = dim.

(** Filling an empty slot does not move any key found elsewhere. *)
Lemma find_insert_other h s (p q : Z) c' :
  0 ≤ p → sl !! Z.to_nat p = Some None →
  find dim sl h s = Some q → q ≠ p →
  find dim (<[Z.to_nat p := c']> sl) h s = Some q.
Proof.
  intros Hp Hempty Hfind Hne.
  destruct (find_inv k dim sl Hk Hdim h s q Hfind)
    as (Hq & m & Hm & -> & Hrej & c & Hc & Hacc).
  apply (find_hit k dim _ Hk Hdim) with (c := c); try done.
  - by rewrite length_insert.
  - intros m' c0 Hm' Hc0.
    destruct (decide (Z.to_nat (probe_pos dim h m') = Z.to_nat p)) as [Heq|Hneq].
    + rewrite Heq in Hc0. specialize (Hrej m' None Hm').
      rewrite Heq in Hrej. by specialize (Hrej Hempty).
    + rewrite list_lookup_insert_ne in Hc0 by done. by eapply Hrej.
  - rewrite list_lookup_insert_ne; [done|]. lia.
Qed.

(** The key put into the empty slot that [findSlot] returned for it is
    found there. *)
Lemma find_insert_same h s (p : Z) :
  sl !! Z.to_nat p = Some None →
  find dim sl h s = Some p →
  find dim (<[Z.to_nat p := Some (h, s)]> sl) h s = Some p.
Proof.
  intros Hempty Hfind.
  destruct (find_inv k dim sl Hk Hdim h s p Hfind)
    as (Hq & m & Hm & -> & Hrej & _).
  apply (find_hit k dim _ Hk Hdim) with (c := Some (h, s)); try done.
  - by rewrite length_insert.
  - intros m' c0 Hm' Hc0.
    destruct (decide (Z.to_nat (probe_pos dim h m') = Z.to_nat (probe_pos dim h m)))
      as [Heq|Hneq].
    + specialize (Hrej m' None Hm'). rewrite Heq in Hrej. by specialize (Hrej Hempty).
    + rewrite list_lookup_insert_ne in Hc0 by done. by eapply Hrej.
  - apply list_lookup_insert_eq. by eapply lookup_lt_Some.
  - simpl. by apply bool_decide_eq_true.
Qed.

End ProbeUpdate.

(** ** Memory *)

Lemma mapM_id_Some (bs : list byte) : mapM id (Some <$> bs) = Some bs.
Proof. apply mapM_Some. induction bs; constructor; done. Qed.

Lemma pool_write_length p off bs p' :
  pool_write p off bs = Some p' → length p' = length p.
Proof.
  unfold pool_write. destruct (_ && _); [|done].
  intros [= <-]. apply length_inserts.
Qed.

Lemma pool_write_Some p off bs :
  0 ≤ off → off + Z.of_nat (length bs) ≤ Z.of_nat (length p) →
  pool_write p off bs = Some (list_inserts (Z.to_nat off) (Some <$> bs) p).
Proof.
  intros H1 H2. unfold pool_write.
  destruct (Z.leb_spec 0 off); [|lia].
  destruct (Z.leb_spec (off + Z.of_nat (length bs)) (Z.of_nat (length p))); [done|lia].
Qed.

Lemma pool_read_Some p off n bs :
  pool_read p off n = Some bs →
  0 ≤ off ∧ 0 ≤ n ∧ off + n ≤ Z.of_nat (length p) ∧
  mapM id (take (Z.to_nat n) (drop (Z.to_nat off) p)) = Some bs.
Proof.
  unfold pool_read.
  destruct (Z.leb_spec 0 off); [|done].
  destruct (Z.leb_spec 0 n); [|done].
  destruct (Z.leb_spec (off + n) (Z.of_nat (length p))); [|done].
  simpl. done.
Qed.

Lemma pool_read_length p off n bs :
  pool_read p off n = Some bs → Z.of_nat (length bs) = n.
Proof.
  intros (H1 & H2 & H3 & H)%pool_read_Some.
  apply length_mapM in H. rewrite length_take, length_drop in H. lia.
Qed.

(** Reading is determined by the cells read. *)
Lemma pool_read_ext p p' off n :
  length p = length p' →
  (∀ i, (Z.to_nat off ≤ i < Z.to_nat off + Z.to_nat n)%nat → p' !! i = p !! i) →
  pool_read p' off n = pool_read p off n.
Proof.
  intros Hlen Hcells. unfold pool_read. rewrite Hlen.
  destruct (_ && _); [|done]. f_equal.
  apply list_eq. intros i. rewrite !lookup_take, !lookup_drop.
  case_decide; [|done]. apply Hcells. lia.
Qed.

(** A read away from a write sees the old content. *)
Lemma pool_read_write_frame p off bs p' o n :
  pool_write p off bs = Some p' →
  o + n ≤ off ∨ off + Z.of_nat (length bs) ≤ o →
  pool_read p' o n = pool_read p o n.
Proof.
  intros Hw Hdisj.
  destruct (decide (0 ≤ o ∧ 0 ≤ n)) as [[Ho Hn]|Hneg].
  - pose proof (pool_write_length _ _ _ _ Hw) as Hlen.
    unfold pool_write in Hw.
    destruct (Z.leb_spec 0 off); [|done]. destruct (_ <=? _); [|done].
    injection Hw as <-. apply pool_read_ext; [done|].
    intros i Hi. destruct Hdisj.
    + apply list_lookup_inserts_lt. lia.
    + apply list_lookup_inserts_ge. rewrite length_fmap. lia.
  - unfold pool_read. destruct (Z.leb_spec 0 o), (Z.leb_spec 0 n); simpl; try done. lia.
Qed.

(** A read of what has just been written. *)
Lemma pool_read_write_same p off bs p' :
  pool_write p off bs = Some p' →
  pool_read p' off (Z.of_nat (length bs)) = Some bs.
Proof.
  intros Hw. pose proof (pool_write_length _ _ _ _ Hw) as Hlen.
  unfold pool_write in Hw.
  destruct (Z.leb_spec 0 off); [|done].
  destruct (Z.leb_spec (off + Z.of_nat (length bs)) (Z.of_nat (length p))); [|done].
  injection Hw as <-. unfold pool_read.
  destruct (Z.leb_spec 0 off); [|lia].
  destruct (Z.leb_spec 0 (Z.of_nat (length bs))); [|lia].
  rewrite length_inserts.
  destruct (Z.leb_spec (off + Z.of_nat (length bs)) (Z.of_nat (length p))); [|lia].
  simpl. rewrite <- (mapM_id_Some bs). f_equal.
  apply list_eq. intros i. rewrite lookup_take, lookup_drop.
  case_decide as Hi.
  - rewrite list_lookup_inserts by (rewrite ?length_fmap; lia).
    f_equal. lia.
  - symmetry. apply lookup_ge_None. rewrite length_fmap. lia.
Qed.

(** A read inside what has just been written. *)
Lemma pool_read_write_sub p off pre bs post p' :
  pool_write p off (pre ++ bs ++ post) = Some p' →
  pool_read p' (off + Z.of_nat (length pre)) (Z.of_nat (length bs)) = Some bs.
Proof.
  intros Hw. pose proof (pool_write_length _ _ _ _ Hw) as Hlen.
  unfold pool_write in Hw. rewrite !length_app in Hw.
  destruct (Z.leb_spec 0 off); [|done].
  destruct (Z.leb_spec (off + Z.of_nat (length pre + (length bs + length post)))
              (Z.of_nat (length p))); [|done].
  injection Hw as <-. unfold pool_read.
  destruct (Z.leb_spec 0 (off + Z.of_nat (length pre))); [|lia].
  destruct (Z.leb_spec 0 (Z.of_nat (length bs))); [|lia].
  rewrite length_inserts.
  destruct (Z.leb_spec (off + Z.of_nat (length pre) + Z.of_nat (length bs))
              (Z.of_nat (length p))); [|lia].
  simpl. rewrite <- (mapM_id_Some bs). f_equal.
  apply list_eq. intros i. rewrite lookup_take, lookup_drop.
  case_decide as Hi.
  - rewrite list_lookup_inserts by (rewrite ?length_fmap, ?length_app; lia).
    rewrite !list_lookup_fmap. f_equal.
    replace (Z.to_nat (off + Z.of_nat (length pre)) + i - Z.to_nat off)%nat
      with (length pre + i)%nat by lia.
    rewrite lookup_app_r by lia. rewrite lookup_app_l by lia. f_equal. lia.
  - symmetry. apply lookup_ge_None. rewrite length_fmap. lia.
Qed.

Lemma decode_encode_from v n : ∀ start,
  decode_usize (map (fun i => byte_of_Z (Z.shiftr v (8 * Z.of_nat i))) (seq start n))
  = (v / 2 ^ (8 * Z.of_nat start)) mod 2 ^ (8 * Z.of_nat n).
Proof.
  induction n as [|n IH]; intros start.
  - simpl. by rewrite Z.mod_1_r.
  - cbn [seq map decode_usize fold_right]. fold (decode_usize).
    change (fold_right (fun b acc => Z_of_byte b + 256 * acc) 0) with decode_usize.
    rewrite Z_of_byte_of_Z, IH, Z.shiftr_div_pow2 by lia.
    replace (2 ^ (8 * Z.of_nat (S n))) with (256 * 2 ^ (8 * Z.of_nat n)).
    2:{ replace (8 * Z.of_nat (S n)) with (8 + 8 * Z.of_nat n) by lia.
        rewrite Z.pow_add_r by lia. done. }
    rewrite Z.rem_mul_r by (try apply Z.pow_pos_nonneg; lia).
    do 3 f_equal.
    replace (8 * Z.of_nat (S start)) with (8 * Z.of_nat start + 8) by lia.
    rewrite Z.pow_add_r by lia.
    rewrite <- Z.div_div by (try apply Z.pow_pos_nonneg; try apply Z.pow_nonzero; lia).
    done.
Qed.

Lemma decode_encode v : 0 ≤ v < 2 ^ 64 → decode_usize (encode_usize v) = v.
Proof.
  intros Hv. unfold encode_usize. rewrite decode_encode_from.
  change (2 ^ (8 * Z.of_nat 0)) with 1. rewrite Z.div_1_r.
  by apply Z.mod_small.
Qed.

Lemma encode_usize_length v : length (encode_usize v) = 8%nat.
Proof. done. Qed.

Lemma record_bytes_length s :
  Z.of_nat (length (record_bytes s)) = sizeof_StringValue + Z.of_nat (length s) + 1.
Proof.
  unfold record_bytes, sizeof_StringValue.
  rewrite !length_app, !encode_usize_length. simpl. lia.
Qed.

Lemma usize_small x : 0 ≤ x < 2 ^ 64 → usize x = x.
Proof. apply Z.mod_small. Qed.

Lemma u32_small x : 0 ≤ x < 2 ^ 32 → u32 x = x.
Proof. apply Z.mod_small. Qed.

Lemma store_ok t idx off bs p :
  0 ≤ idx → pools t !! Z.to_nat idx = Some p →
  0 ≤ off → off + Z.of_nat (length bs) ≤ Z.of_nat (length p) →
  store idx off bs t
  = Some (tt, set_pools (fun ps => <[Z.to_nat idx :=
                list_inserts (Z.to_nat off) (Some <$> bs) p]> ps) t).
Proof.
  intros Hidx Hp Hoff Hfit. unfold store.
  destruct (Z.ltb_spec idx 0); [lia|]. rewrite Hp.
  by rewrite pool_write_Some.
Qed.

Lemma load_ok t idx off n p bs :
  0 ≤ idx → pools t !! Z.to_nat idx = Some p →
  pool_read p off n = Some bs →
  load idx off n t = Some (bs, t).
Proof.
  intros Hidx Hp Hr. unfold load.
  destruct (Z.ltb_spec idx 0); [lia|]. by rewrite Hp, Hr.
Qed.

Lemma alloc_place_raw t s p :
  1 ≤ npools t ≤ 2 ^ 20 → 0 ≤ nfill t < POOL_SIZE →
  Z.of_nat (length s) < 2 ^ 62 →
  pools t !! Z.to_nat (npools t - 1) = Some p →
  nfill t + (sizeof_StringValue + Z.of_nat (length s) + 1) ≤ Z.of_nat (length p) →
  alloc_place s (Z.of_nat (length s)) (sizeof_StringValue + Z.of_nat (length s) + 1) t
  = Some (u32 (npools t * POOL_SIZE + nfill t),
          mkTable (table t) (tabledim t)
            (<[Z.to_nat (npools t - 1) :=
                 list_inserts (Z.to_nat (nfill t)) (Some <$> record_bytes s) p]> (pools t))
            (npools t)
            (nfill t + (sizeof_StringValue + Z.of_nat (length s) + 1)
                     + (- (sizeof_StringValue + Z.of_nat (length s) + 1)) mod 8)
            (count t)).
Proof.
  intros Hnp Hnf Hlen Hp Hfit. unfold alloc_place.
  set (len := Z.of_nat (length s)) in *.
  unfold bind at 1. unfold gets at 1. unfold bind at 1. unfold gets at 1.
  rewrite (usize_small (npools t - 1)) by lia.
  unfold sv_set_ptrvalue, sv_set_length, sv_memcpy_lstring, sv_set_lstring.
  cbn [sv_pool sv_off].
  assert (Hlp : (Z.to_nat (npools t - 1) < length (pools t))%nat)
    by (by eapply lookup_lt_Some).
  rewrite take_ge by lia.
  unfold off_ptrvalue, off_length, off_lstring, sizeof_StringValue in *.
  set (i := Z.to_nat (npools t - 1)) in *.
  set (p1 := list_inserts (Z.to_nat (nfill t + 0)) (Some <$> encode_usize 0) p).
  set (p2 := list_inserts (Z.to_nat (nfill t + 8)) (Some <$> encode_usize len) p1).
  set (p3 := list_inserts (Z.to_nat (nfill t + 16)) (Some <$> s) p2).
  set (p4 := list_inserts (Z.to_nat (nfill t + 16 + len)) (Some <$> ["000"%byte]) p3).
  assert (Hl1 : length p1 = length p) by apply length_inserts.
  assert (Hl2 : length p2 = length p) by (unfold p2; by rewrite length_inserts).
  assert (Hl3 : length p3 = length p) by (unfold p3; by rewrite length_inserts).
  unfold bind at 1.
  rewrite (store_ok t _ _ _ p) by (rewrite ?encode_usize_length; done || lia).
  fold p1. unfold bind at 1.
  rewrite (store_ok _ _ _ _ p1);
    [|lia|by apply list_lookup_insert_eq|lia|rewrite ?encode_usize_length; lia].
  fold p2. unfold bind at 1.
  rewrite (store_ok _ _ _ _ p2);
    [|lia|simpl; rewrite list_insert_insert_eq; by apply list_lookup_insert_eq|lia|lia].
  fold p3. unfold bind at 1.
  rewrite (store_ok _ _ _ _ p3);
    [|lia|simpl; rewrite !list_insert_insert_eq; by apply list_lookup_insert_eq|lia|simpl; lia].
  fold p4. unfold bind, modify, ret, set_nfill, set_pools.
  cbn [pools table tabledim npools nfill count].
  rewrite !list_insert_insert_eq.
  assert (Hp4 : list_inserts (Z.to_nat (nfill t)) (Some <$> record_bytes s) p = p4).
  { unfold record_bytes. rewrite !fmap_app, !list_inserts_app_l.
    rewrite !length_fmap, !encode_usize_length. unfold p4, p3, p2, p1.
    repeat f_equal; lia. }
  rewrite Hp4. clearbody p4. clear Hp4 p1 p2 p3 Hl1 Hl2 Hl3.
  f_equal. f_equal.
  - rewrite Z.shiftl_mul_pow2 by (unfold POOL_BITS; lia).
    unfold POOL_SIZE, POOL_BITS in *. change (Z.shiftl 1 12) with 4096 in *.
    change (2 ^ 12) with 4096. rewrite usize_small by lia.
    change 4096 with (2 ^ 12) at 1. rewrite <- Z.shiftl_mul_pow2 by lia.
    rewrite lor_shiftl_add by lia. change (2 ^ 12) with 4096.
    done.
  - f_equal.
    assert (Hpad : Z.land (usize (- (16 + len + 1))) 7 = (- (16 + len + 1)) mod 8).
    { change 7 with (Z.ones 3). rewrite Z.land_ones by lia. unfold usize.
      change (2 ^ 3) with 8. change (2 ^ 64) with (8 * 2 ^ 61).
      rewrite Z.rem_mul_r by lia. rewrite (Z.mul_comm 8), Z.mod_add by lia.
      by rewrite Z.mod_mod by lia. }
    rewrite Hpad.
    pose proof (Z.mod_pos_bound (- (16 + len + 1)) 8 ltac:(lia)).
    unfold POOL_SIZE, POOL_BITS in *. change (Z.shiftl 1 12) with 4096 in *.
    rewrite (usize_small (16 + len + 1 + _)) by lia.
    rewrite usize_small by lia. lia.
Qed.

Lemma alloc_place_eq t s p :
  1 ≤ npools t < 2 ^ 20 → 0 ≤ nfill t < POOL_SIZE →
  Z.of_nat (length s) < 2 ^ 62 →
  pools t !! Z.to_nat (npools t - 1) = Some p →
  nfill t + (sizeof_StringValue + Z.of_nat (length s) + 1) ≤ Z.of_nat (length p) →
  alloc_place s (Z.of_nat (length s)) (sizeof_StringValue + Z.of_nat (length s) + 1) t
  = Some (npools t * POOL_SIZE + nfill t,
          mkTable (table t) (tabledim t)
            (<[Z.to_nat (npools t - 1) :=
                 list_inserts (Z.to_nat (nfill t)) (Some <$> record_bytes s) p]> (pools t))
            (npools t)
            (nfill t + (sizeof_StringValue + Z.of_nat (length s) + 1)
                     + (- (sizeof_StringValue + Z.of_nat (length s) + 1)) mod 8)
            (count t)).
Proof.
  intros Hnp Hnf Hlen Hp Hfit.
  rewrite (alloc_place_raw t s p) by (done || lia).
  rewrite u32_small; [done|]. unfold POOL_SIZE, POOL_BITS in *.
  change (Z.shiftl 1 12) with 4096 in *. lia.
Qed.

Lemma allocValue_eq t s :
  alloc_ok t → npools t + 1 < 2 ^ 20 → Z.of_nat (length s) < 2 ^ 62 →
  allocValue s (Z.of_nat (length s)) t = Some (alloc_result s t).
Proof.
  intros [Hnp Hh Hsz Hnf Hcur] Hlim Hlen.
  unfold allocValue, alloc_result, alloc_fresh.
  set (len := Z.of_nat (length s)) in *.
  assert (Hreq : usize (sizeof_StringValue + len + 1) = sizeof_StringValue + len + 1).
  { apply usize_small. unfold sizeof_StringValue. lia. }
  rewrite Hreq. set (required := sizeof_StringValue + len + 1) in *.
  unfold bind at 1. unfold gets at 1. unfold bind at 1. unfold gets at 1.
  assert (Hreq' : 17 ≤ required < 2 ^ 62 + 17) by (unfold required, sizeof_StringValue; lia).
  rewrite (usize_small (nfill t + required)) by lia.
  unfold bind at 1.
  destruct ((npools t =? 0) || (POOL_SIZE <? nfill t + required)) eqn:Hfresh.
  - unfold alloc_new_pool, bind, gets, modify.
    cbn [set_npools set_pools set_nfill pools table tabledim npools nfill count].
    assert (Hmax : (if POOL_SIZE <? required then required else POOL_SIZE)
                   = Z.max required POOL_SIZE)
      by (destruct (Z.ltb_spec POOL_SIZE required); lia).
    rewrite Hmax. set (pnew := malloc (Z.max required POOL_SIZE)).
    assert (Hpl : Z.of_nat (length pnew) = Z.max required POOL_SIZE).
    { unfold pnew, malloc. rewrite length_replicate. lia. }
    rewrite (usize_small (npools t + 1)) by lia.
    assert (Hlk : (pools t ++ [pnew]) !! Z.to_nat (npools t + 1 - 1) = Some pnew).
    { rewrite lookup_app_r by lia.
      replace (Z.to_nat (npools t + 1 - 1) - length (pools t))%nat with 0%nat by lia.
      done. }
    unfold required.
    rewrite (alloc_place_eq _ s pnew); cbn [npools nfill set_nfill set_pools set_npools pools];
      try done; try lia.
    unfold write_at. by rewrite Hlk.
  - apply orb_false_iff in Hfresh as [Hnz Hfit].
    apply Z.eqb_neq in Hnz. apply Z.ltb_ge in Hfit.
    destruct (pools t !! Z.to_nat (npools t - 1)) as [p|] eqn:Hp.
    2:{ apply lookup_ge_None in Hp. lia. }
    pose proof (Forall_lookup_1 _ _ _ _ Hsz Hp) as Hpsz. cbn beta in Hpsz.
    unfold ret, bind. cbv beta iota. unfold required, len.
    rewrite (alloc_place_eq t s p); try done; try lia.
    unfold write_at. by rewrite Hp.
Qed.

Lemma POOL_SIZE_eq : POOL_SIZE = 4096.
Proof. done. Qed.

(** What [allocValue] does, case by case. *)
Lemma alloc_result_shape t s :
  alloc_ok t → npools t + 1 < 2 ^ 20 → Z.of_nat (length s) < 2 ^ 62 →
  let required := sizeof_StringValue + Z.of_nat (length s) + 1 in
  let vp := (alloc_result s t).1 in
  let t' := (alloc_result s t).2 in
  ∃ np' off pold,
    vp = np' * POOL_SIZE + off ∧ 1 ≤ np' < 2 ^ 20 ∧ 0 ≤ off < POOL_SIZE ∧
    npools t' = np' ∧ nfill t' = off + required + (- required) mod 8 ∧
    table t' = table t ∧ tabledim t' = tabledim t ∧ count t' = count t ∧
    Z.of_nat (length (pools t')) = np' ∧
    pools t' !! Z.to_nat (np' - 1)
      = Some (list_inserts (Z.to_nat off) (Some <$> record_bytes s) pold) ∧
    off + required ≤ Z.of_nat (length pold) ∧
    POOL_SIZE ≤ Z.of_nat (length pold) ∧
    (∀ i, i ≠ Z.to_nat (np' - 1) → (i < length (pools t))%nat →
          pools t' !! i = pools t !! i) ∧
    ((alloc_fresh t required = true ∧ np' = npools t + 1 ∧ off = 0 ∧
      pold = malloc (Z.max required POOL_SIZE) ∧
      pools t' = pools t ++ [list_inserts 0 (Some <$> record_bytes s) pold]) ∨
     (alloc_fresh t required = false ∧ np' = npools t ∧ off = nfill t ∧
      pools t !! Z.to_nat (np' - 1) = Some pold ∧
      pools t' = <[Z.to_nat (np' - 1) :=
                     list_inserts (Z.to_nat off) (Some <$> record_bytes s) pold]> (pools t))).
Proof.
  intros [Hnp Hh Hsz Hnf Hcur] Hlim Hlen required vp t'.
  subst vp t'. unfold alloc_result. fold required.
  assert (Hreq : 17 ≤ required < 2 ^ 62 + 17)
    by (unfold required, sizeof_StringValue; lia).
  pose proof POOL_SIZE_eq as HPS.
  destruct (alloc_fresh t required) eqn:Hfresh; cbn [fst snd npools nfill table tabledim count pools].
  - set (pold := malloc (Z.max required POOL_SIZE)).
    assert (Hpl : Z.of_nat (length pold) = Z.max required POOL_SIZE).
    { unfold pold, malloc. rewrite length_replicate. lia. }
    assert (Hlk : (pools t ++ [pold]) !! Z.to_nat (npools t + 1 - 1) = Some pold).
    { rewrite lookup_app_r by lia.
      replace (Z.to_nat (npools t + 1 - 1) - length (pools t))%nat with 0%nat by lia.
      done. }
    assert (Hw : write_at (pools t ++ [pold]) (npools t + 1 - 1) 0 (record_bytes s)
                 = pools t ++ [list_inserts 0 (Some <$> record_bytes s) pold]).
    { unfold write_at. rewrite Hlk.
      replace (Z.to_nat (npools t + 1 - 1)) with (length (pools t) + 0)%nat by lia.
      by rewrite insert_app_r. }
    exists (npools t + 1), 0, pold. rewrite Hw.
    split_and!; try done; try lia.
    + rewrite length_app. simpl. lia.
    + rewrite lookup_app_r by lia.
      replace (Z.to_nat (npools t + 1 - 1) - length (pools t))%nat with 0%nat by lia.
      done.
    + intros i Hi Hlt. by rewrite lookup_app_l.
    + left. done.
  - unfold alloc_fresh in Hfresh.
    apply orb_false_iff in Hfresh as [Hnz Hfit].
    apply Z.eqb_neq in Hnz. apply Z.ltb_ge in Hfit.
    destruct (pools t !! Z.to_nat (npools t - 1)) as [pold|] eqn:Hp.
    2:{ apply lookup_ge_None in Hp. lia. }
    pose proof (Forall_lookup_1 _ _ _ _ Hsz Hp) as Hpsz. cbn beta in Hpsz.
    exists (npools t), (nfill t), pold. unfold write_at. rewrite Hp.
    split_and!; try done; try lia.
    + rewrite length_insert. lia.
    + apply list_lookup_insert_eq. by eapply lookup_lt_Some.
    + intros i Hi Hlt. by rewrite list_lookup_insert_ne.
    + right. split_and!; try done.
Qed.

(** Unpacking a handle gives back what was packed. *)
Lemma decode_handle np off :
  1 ≤ np < 2 ^ 20 → 0 ≤ off < POOL_SIZE →
  decode_pool (np * POOL_SIZE + off) = np - 1 ∧
  decode_off (np * POOL_SIZE + off) = off ∧
  np * POOL_SIZE + off ≠ 0.
Proof.
  intros Hnp Hoff. rewrite POOL_SIZE_eq in *.
  unfold decode_pool, decode_off, POOL_BITS. rewrite POOL_SIZE_eq.
  rewrite Z.shiftr_div_pow2 by lia. change (2 ^ 12) with 4096.
  change (4096 - 1) with (Z.ones 12). rewrite Z.land_ones by lia.
  change (2 ^ 12) with 4096.
  replace ((np * 4096 + off) / 4096) with np by lia_mod.
  replace ((np * 4096 + off) mod 4096) with off by lia_mod.
  rewrite u32_small by lia. lia.
Qed.

Lemma record_at_ext t t' vp s :
  pools t' = pools t → npools t' = npools t → nfill t' = nfill t →
  record_at t vp s → record_at t' vp s.
Proof. unfold record_at. intros -> -> ->. done. Qed.

Lemma alloc_result_ok t s :
  alloc_ok t → npools t + 1 < 2 ^ 20 → Z.of_nat (length s) < 2 ^ 62 →
  alloc_ok (alloc_result s t).2.
Proof.
  intros Hok Hlim Hlen.
  destruct (alloc_result_shape t s Hok Hlim Hlen)
    as (np' & off & pold & Hvp & Hnp' & Hoff & Hnpools & Hnfill & Htab & Hdim & Hcnt
        & Hplen & Hlast & Hfit & Hpsz & Hother & Hcase).
  destruct Hok as [Hnp Hh Hsz Hnf Hcur].
  set (t' := (alloc_result s t).2) in *.
  pose proof (Z.mod_pos_bound (- (sizeof_StringValue + Z.of_nat (length s) + 1)) 8
                ltac:(lia)).
  pose proof POOL_SIZE_eq. unfold sizeof_StringValue in *.
  split; try lia.
  - destruct Hcase as [(_ & _ & _ & _ & ->) | (_ & _ & _ & Hp & ->)].
    + apply Forall_app. split; [done|]. apply Forall_singleton.
      rewrite length_inserts. lia.
    + apply Forall_insert; [done|]. rewrite length_inserts. lia.
  - intros p Hp'. rewrite Hnpools, Hlast in Hp'. apply (inj Some) in Hp'. subst p.
    rewrite length_inserts, Hnfill.
    destruct Hcase as [(_ & _ & -> & -> & _) | (_ & -> & -> & Hp & _)].
    + unfold malloc. rewrite length_replicate. lia.
    + destruct (Hcur pold Hp); lia.
Qed.

(** Records allocated earlier are not touched by an allocation. *)
Lemma alloc_result_frame t s vq sq :
  alloc_ok t → npools t + 1 < 2 ^ 20 → Z.of_nat (length s) < 2 ^ 62 →
  record_at t vq sq → record_at (alloc_result s t).2 vq sq.
Proof.
  intros Hok Hlim Hlen (Hnz & Hlq & p & Hp & Hrl & Hrs & Hrz & Hregion).
  destruct (alloc_result_shape t s Hok Hlim Hlen)
    as (np' & off & pold & Hvp & Hnp' & Hoff & Hnpools & Hnfill & Htab & Hdim & Hcnt
        & Hplen & Hlast & Hfit & Hpsz & Hother & Hcase).
  destruct Hok as [Hnp Hh Hsz Hnf Hcur].
  set (t' := (alloc_result s t).2) in *.
  pose proof (Z.mod_pos_bound (- (sizeof_StringValue + Z.of_nat (length s) + 1)) 8
                ltac:(lia)) as Hpad.
  pose proof (lookup_lt_Some _ _ _ Hp) as Hidx.
  assert (Hdp : 0 ≤ decode_pool vq) by (apply Z.mod_pos_bound; lia).
  split; [done|]. split; [done|].
  destruct (decide (Z.to_nat (decode_pool vq) = Z.to_nat (np' - 1))) as [Heq|Hne].
  - (* the record lies in the pool that is written: below the cursor *)
    destruct Hcase as [(_ & -> & _) | (_ & -> & -> & Hpold & _)]; [lia|].
    rewrite Heq in Hp. assert (pold = p) as -> by congruence.
    destruct Hregion as [?|[Hlastpool Hbelow]]; [lia|].
    eexists. split; [by rewrite Heq|].
    pose proof (pool_write_Some p (nfill t) (record_bytes s) ltac:(lia)
                  ltac:(rewrite record_bytes_length; lia)) as Hw.
    unfold off_length, off_lstring, sizeof_StringValue in *.
    pose proof (proj1 (pool_read_Some _ _ _ _ Hrl)).
    rewrite !(pool_read_write_frame _ _ _ _ _ _ Hw) by lia.
    split_and!; try done. right. lia.
  - exists p. rewrite Hother by done.
    split_and!; try done.
    destruct Hcase as [(_ & -> & _) | (_ & -> & -> & _)]; lia.
Qed.

(** The handle returned by [allocValue] denotes a record for [s]. *)
Lemma alloc_result_record t s :
  alloc_ok t → npools t + 1 < 2 ^ 20 → Z.of_nat (length s) < 2 ^ 62 →
  record_at (alloc_result s t).2 (alloc_result s t).1 s.
Proof.
  intros Hok Hlim Hlen.
  destruct (alloc_result_shape t s Hok Hlim Hlen)
    as (np' & off & pold & Hvp & Hnp' & Hoff & Hnpools & Hnfill & Htab & Hdim & Hcnt
        & Hplen & Hlast & Hfit & Hpsz & Hother & Hcase).
  set (t' := (alloc_result s t).2) in *. set (vp := (alloc_result s t).1) in *.
  destruct (decode_handle np' off Hnp' Hoff) as (Hdp & Hdo & Hnz).
  rewrite <- Hvp in *.
  pose proof (Z.mod_pos_bound (- (sizeof_StringValue + Z.of_nat (length s) + 1)) 8
                ltac:(lia)) as Hpad.
  split; [done|]. split; [done|]. rewrite Hdp, Hdo.
  eexists. split; [apply Hlast|].
  pose proof (pool_write_Some pold off (record_bytes s) ltac:(lia)
                ltac:(rewrite record_bytes_length; lia)) as Hw.
  unfold off_length, off_lstring, sizeof_StringValue in *.
  split_and!.
  - apply (pool_read_write_sub pold off (encode_usize 0)
             (encode_usize (Z.of_nat (length s))) (s ++ ["000"%byte])). apply Hw.
  - unfold record_bytes in Hw. rewrite (app_assoc (encode_usize 0)) in Hw.
    pose proof (pool_read_write_sub pold off _ s ["000"%byte] _ Hw) as Hr.
    rewrite length_app, !encode_usize_length in Hr.
    by replace (off + Z.of_nat (8 + 8)) with (off + 16) in Hr by lia.
  - unfold record_bytes in Hw.
    rewrite (app_assoc (encode_usize 0)), (app_assoc _ s) in Hw.
    rewrite <- (app_nil_r ["000"%byte]) in Hw at 1.
    pose proof (pool_read_write_sub pold off _ ["000"%byte] [] _ Hw) as Hr.
    rewrite !length_app, !encode_usize_length in Hr.
    by replace (off + Z.of_nat (8 + 8 + length s)) with (off + 16 + Z.of_nat (length s))
      in Hr by lia.
  - right. lia.
Qed.

(** ** [findSlot] on the entries is the probe loop on the slots *)

Lemma getValue_ok t vp s :
  record_at t vp s →
  getValue vp t = Some (Some (mkPtr (decode_pool vp) (decode_off vp)), t).
Proof.
  intros (Hnz & _ & p & Hp & _). unfold getValue.
  destruct (Z.eqb_spec vp 0); [done|].
  unfold bind, gets. fold (decode_pool vp). fold (decode_off vp). by rewrite Hp.
Qed.

Lemma record_pool_nonneg vp : 0 ≤ decode_pool vp.
Proof. apply Z.mod_pos_bound. lia. Qed.

Lemma sv_length_ok t vp s :
  record_at t vp s →
  sv_length (mkPtr (decode_pool vp) (decode_off vp)) t = Some (Z.of_nat (length s), t).
Proof.
  intros (Hnz & Hlen & p & Hp & Hrl & _). unfold sv_length, bind. cbn [sv_pool sv_off].
  rewrite (load_ok t _ _ _ p _ (record_pool_nonneg vp) Hp Hrl).
  unfold ret. by rewrite decode_encode by lia.
Qed.

Lemma sv_lstring_ok t vp s :
  record_at t vp s →
  sv_lstring (mkPtr (decode_pool vp) (decode_off vp)) (Z.of_nat (length s)) t = Some (s, t).
Proof.
  intros (Hnz & Hlen & p & Hp & Hrl & Hrs & _). unfold sv_lstring. cbn [sv_pool sv_off].
  by rewrite (load_ok t _ _ _ p _ (record_pool_nonneg vp) Hp Hrs).
Qed.

Lemma slot_matches_ok t e hq sq h s :
  hash e = hq → record_at t (vptr e) sq →
  slot_matches e h s (Z.of_nat (length s)) t = Some (accepts (Some (hq, sq)) h s, t).
Proof.
  intros Hh Hrec. unfold slot_matches, accepts. rewrite Hh.
  destruct (Z.eqb_spec hq h) as [->|Hne].
  - unfold bind at 1. rewrite (getValue_ok t _ sq Hrec).
    unfold bind at 1. rewrite (sv_length_ok t _ sq Hrec).
    destruct (Z.eqb_spec (Z.of_nat (length sq)) (Z.of_nat (length s))) as [Heq|Hneq].
    + unfold bind. rewrite <- Heq, (sv_lstring_ok t _ sq Hrec). unfold ret.
      rewrite Heq, Nat2Z.id, take_ge by lia.
      do 2 f_equal. apply bool_decide_ext. intuition congruence.
    + unfold ret. do 2 f_equal. symmetry. apply bool_decide_eq_false.
      intros [_ ->]. done.
  - unfold ret. do 2 f_equal. symmetry. apply bool_decide_eq_false. intuition congruence.
Qed.

Lemma table_get_abs t sl (i : Z) c :
  abstracts t sl → 0 ≤ i → sl !! Z.to_nat i = Some c →
  ∃ e, table_get i t = Some (e, t) ∧ slot_of t e c.
Proof.
  intros Habs Hi Hc. unfold table_get. destruct (Z.ltb_spec i 0); [lia|].
  destruct (Forall2_lookup_r _ _ _ _ _ Habs Hc) as (e & He & Hslot).
  exists e. by rewrite He.
Qed.

Section FindSlotAbs.
Variables (t : StringTable) (sl : list slot) (k : Z).
Hypothesis Habs : abstracts t sl.
Hypothesis Hk : 0 ≤ k ≤ 60.
Hypothesis Hdim : tabledim t = 2 ^ k.
Hypothesis Hlen : Z.of_nat (length sl) = tabledim t.

Lemma dim_bounds : 0 < tabledim t ≤ 2 ^ 60.
Proof.
  rewrite Hdim. split; [apply Z.pow_pos_nonneg; lia|].
  apply Z.pow_le_mono_r; lia.
Qed.

Lemma findSlot_loop_abs h s fuel : ∀ i j,
  0 ≤ i < tabledim t → 0 ≤ j → j + Z.of_nat fuel < 2 ^ 62 →
  findSlot_loop fuel h s (Z.of_nat (length s)) i j t
  = (fun p => (p, t)) <$> probe fuel (tabledim t) sl h s i j.
Proof.
  pose proof dim_bounds as Hdb.
  induction fuel as [|fuel IH]; intros i j Hi Hj Hfuel; [done|].
  cbn [findSlot_loop probe].
  destruct (sl !! Z.to_nat i) as [c|] eqn:Hc.
  2:{ apply lookup_ge_None in Hc. lia. }
  destruct (table_get_abs t sl i c Habs ltac:(lia) Hc) as (e & He & Hslot).
  unfold bind at 1. rewrite He.
  assert (Hhit : (if vptr e =? 0 then ret true
                  else slot_matches e h s (Z.of_nat (length s))) t
                 = Some (accepts c h s, t)).
  { destruct c as [[hq sq]|]; simpl in Hslot.
    - destruct Hslot as [Hh Hrec]. destruct (Z.eqb_spec (vptr e) 0) as [Hz|_].
      + by destruct Hrec as [? _].
      + by apply slot_matches_ok.
    - by rewrite Hslot. }
  unfold bind at 1. rewrite Hhit.
  destruct (accepts c h s); [done|].
  unfold bind at 1, gets at 1.
  rewrite (usize_small (i + j)), (usize_small (tabledim t - 1)), (usize_small (j + 1)) by lia.
  apply IH; [|lia|lia].
  rewrite (land_dim k (tabledim t)) by (lia || done).
  apply Z.mod_pos_bound. lia.
Qed.

Lemma findSlot_abs h s :
  findSlot h s (Z.of_nat (length s)) t = (fun p => (p, t)) <$> find (tabledim t) sl h s.
Proof.
  pose proof dim_bounds as Hdb.
  unfold findSlot, find, bind, gets.
  rewrite (usize_small (tabledim t - 1)) by lia.
  apply findSlot_loop_abs; [|lia|lia].
  rewrite (land_dim k (tabledim t)) by (lia || done).
  apply Z.mod_pos_bound. lia.
Qed.


End FindSlotAbs.

(** ** Growth *)

Lemma slot_of_ext t t' e c :
  pools t' = pools t → npools t' = npools t → nfill t' = nfill t →
  slot_of t e c → slot_of t' e c.
Proof.
  intros Hp Hn Hf. destruct c as [[h s]|]; simpl; [|done].
  intros [? ?]. split; [done|]. by apply (record_at_ext t).
Qed.

Lemma slots_frame t t' tab sl :
  (∀ e c, slot_of t e c → slot_of t' e c) →
  Forall2 (slot_of t) tab sl → Forall2 (slot_of t') tab sl.
Proof. intros H F. induction F; constructor; auto. Qed.

Lemma occupied_cons c sl :
  occupied (c :: sl) = ((if c is Some _ then 1 else 0) + occupied sl)%nat.
Proof.
  unfold occupied. destruct c.
  - by rewrite filter_cons_True by eauto.
  - by rewrite filter_cons_False by (intros [? ?]; done).
Qed.

#[local] Arguments occupied : simpl never.

Lemma occupied_insert (sl : list slot) (i : nat) key :
  sl !! i = Some None →
  occupied (<[i := Some key]> sl) = S (occupied sl).
Proof.
  revert i. induction sl as [|c sl IH]; intros i Hi; [done|].
  destruct i as [|i]; simpl in *.
  - injection Hi as ->. by rewrite !occupied_cons.
  - rewrite (occupied_cons c sl), (occupied_cons c (<[i:=Some key]> sl)).
    rewrite (IH i) by done. lia.
Qed.

Lemma occupied_le (sl : list slot) : (occupied sl ≤ length sl)%nat.
Proof. unfold occupied. apply length_filter. Qed.

(** A table that is not full has an empty slot. *)
Lemma occupied_lt_empty (sl : list slot) :
  (occupied sl < length sl)%nat → None ∈ sl.
Proof.
  induction sl as [|c sl IH]; simpl; [unfold occupied; simpl; lia|].
  rewrite occupied_cons. destruct c as [key|].
  - intros H. right. apply IH. lia.
  - intros _. left.
Qed.

Lemma occupied_replicate n : occupied (replicate n None) = 0%nat.
Proof.
  induction n as [|n IH]; [done|]. simpl. by rewrite occupied_cons, IH.
Qed.

Lemma table_upd_ok t (i : Z) f e :
  0 ≤ i → table t !! Z.to_nat i = Some e →
  table_upd i f t = Some (tt, set_table (fun tab => <[Z.to_nat i := f e]> tab) t).
Proof.
  intros Hi He. unfold table_upd, bind, table_get, modify.
  destruct (Z.ltb_spec i 0); [lia|]. by rewrite He.
Qed.

(** One turn of the loop of [grow]: the old entry goes, verbatim, into an
    empty slot of the new array, where [findSlot] finds its key. *)
Lemma grow_step_spec tc slc se c :
  table_ok tc slc → slot_of tc se c →
  (occupied slc < length slc)%nat →
  (∀ key, c = Some key → Some key ∉ slc) →
  (∀ h s, c = Some (h, s) → h = Hasher.calcHash s (Z.of_nat (length s))) →
  ∃ tc' slc',
    grow_step se tc = Some (tt, tc') ∧
    pools tc' = pools tc ∧ npools tc' = npools tc ∧ nfill tc' = nfill tc ∧
    count tc' = count tc ∧ tabledim tc' = tabledim tc ∧
    table_ok tc' slc' ∧
    occupied slc' = ((if c is Some _ then 1 else 0) + occupied slc)%nat ∧
    (∀ key, Some key ∈ slc' ↔ Some key ∈ slc ∨ c = Some key) ∧
    (∀ e key, holds tc' slc' e key ↔ holds tc slc e key ∨ (e = se ∧ c = Some key)).
Proof.
  intros [Habs (k & Hk & Hdim) Hlen Hfind] Hslot Hroom Hfresh Hhash.
  destruct c as [[h s]|]; simpl in Hslot.
  - destruct Hslot as [Hh Hrec].
    assert (Hnz : vptr se ≠ 0) by (by destruct Hrec).
    unfold grow_step. destruct (Z.eqb_spec (vptr se) 0); [done|].
    unfold bind at 1. rewrite (getValue_ok tc _ s Hrec).
    unfold bind at 1. rewrite (sv_length_ok tc _ s Hrec).
    unfold bind at 1. rewrite (sv_lstring_ok tc _ s Hrec).
    unfold bind at 1.
    rewrite (findSlot_abs tc slc k Habs ltac:(lia) Hdim Hlen), Hh.
    destruct (find_total k (tabledim tc) slc ltac:(lia) Hdim Hlen h s None) as [i Hi];
      [by apply occupied_lt_empty|done|].
    rewrite Hi. cbn [fmap option_fmap option_map].
    destruct (find_inv k (tabledim tc) slc ltac:(lia) Hdim h s i Hi)
      as (Hirange & m & Hm & Him & Hrej & ci & Hci & Hacc).
    assert (ci = None) as ->.
    { destruct ci as [[h' s']|]; [|done]. simpl in Hacc.
      apply bool_decide_eq_true in Hacc as [-> ->].
      exfalso. apply (Hfresh (h, s) eq_refl). by eapply list_elem_of_lookup_2. }
    destruct (table_get_abs tc slc i None Habs ltac:(lia) Hci) as (e0 & He0 & Hs0).
    unfold table_get in He0. destruct (Z.ltb_spec i 0); [lia|].
    destruct (table tc !! Z.to_nat i) as [e0'|] eqn:Hti; [|done].
    rewrite (table_upd_ok tc i _ e0') by (done || lia).
    set (tc' := set_table _ tc).
    exists tc', (<[Z.to_nat i := Some (h, s)]> slc).
    assert (Hti' : (Z.to_nat i < length (table tc))%nat) by (by eapply lookup_lt_Some).
    assert (Hci' : (Z.to_nat i < length slc)%nat) by (by eapply lookup_lt_Some).
    split_and!; try done.
    + split.
      * unfold abstracts, tc'. cbn [table set_table].
        apply Forall2_insert; [|done].
        apply (slots_frame tc); [|exact Habs].
        intros ? ? ?. by eapply slot_of_ext.
      * exists k. done.
      * by rewrite length_insert.
      * intros p h' s' Hp. cbn [tabledim tc' set_table].
        destruct (decide (p = Z.to_nat i)) as [->|Hne].
        -- rewrite list_lookup_insert_eq in Hp by done. injection Hp as <- <-.
           split; [by apply Hhash|]. rewrite Z2Nat.id by lia.
           apply (find_insert_same k); (done || lia).
        -- rewrite list_lookup_insert_ne in Hp by done.
           destruct (Hfind p h' s' Hp) as [Hh' Hf']. split; [done|].
           apply (find_insert_other k); try done; lia.
    + by apply occupied_insert.
    + intros key. split.
      * intros [j Hj]%list_elem_of_lookup_1.
        destruct (decide (j = Z.to_nat i)) as [->|Hne].
        -- rewrite list_lookup_insert_eq in Hj by done. injection Hj as <-. by right.
        -- rewrite list_lookup_insert_ne in Hj by done. left. by eapply list_elem_of_lookup_2.
      * intros [[j Hj]%list_elem_of_lookup_1 | [= <-]].
        -- destruct (decide (j = Z.to_nat i)) as [->|Hne]; [congruence|].
           apply (list_elem_of_lookup_2 _ j). by rewrite list_lookup_insert_ne.
        -- apply (list_elem_of_lookup_2 _ (Z.to_nat i)). by apply list_lookup_insert_eq.
    + intros e key. unfold holds, tc'. cbn [table set_table]. split.
      * intros (j & Hje & Hjk).
        destruct (decide (j = Z.to_nat i)) as [->|Hne].
        -- rewrite list_lookup_insert_eq in Hje by done.
           rewrite list_lookup_insert_eq in Hjk by done.
           injection Hje as <-. injection Hjk as <-. by right.
        -- rewrite list_lookup_insert_ne in Hje by done.
           rewrite list_lookup_insert_ne in Hjk by done. left. eauto.
      * intros [(j & Hje & Hjk) | [-> [= <-]]].
        -- destruct (decide (j = Z.to_nat i)) as [->|Hne]; [congruence|].
           exists j. by rewrite !list_lookup_insert_ne.
        -- exists (Z.to_nat i). by rewrite !list_lookup_insert_eq.
  - unfold grow_step. rewrite Hslot. simpl.
    exists tc, slc. split_and!; try done.
    + split; eauto.
    + intros key. split; [by left | by intros [?|?]].
    + intros e key. split; [by left | by intros [?|[_ ?]]].
Qed.


Lemma grow_loop_spec rest rsl : ∀ tc slc,
  Forall2 (slot_of tc) rest rsl →
  table_ok tc slc →
  (occupied slc + length rest < length slc)%nat →
  (∀ (i j : nat) key, rsl !! i = Some (Some key) → rsl !! j = Some (Some key) → i = j) →
  (∀ key, Some key ∈ rsl → Some key ∉ slc) →
  (∀ h s, Some (h, s) ∈ rsl → h = Hasher.calcHash s (Z.of_nat (length s))) →
  ∃ tc' slc',
    grow_loop rest tc = Some (tt, tc') ∧
    pools tc' = pools tc ∧ npools tc' = npools tc ∧ nfill tc' = nfill tc ∧
    count tc' = count tc ∧ tabledim tc' = tabledim tc ∧
    table_ok tc' slc' ∧
    occupied slc' = (occupied slc + occupied rsl)%nat ∧
    (∀ e key, holds tc' slc' e key ↔
       holds tc slc e key ∨ ∃ i : nat, rest !! i = Some e ∧ rsl !! i = Some (Some key)).
Proof.
  revert rsl. induction rest as [|se rest IH]; intros rsl tc slc Hrest Hok Hroom Hnodup Hfresh Hhash.
  - apply Forall2_nil_inv_l in Hrest as ->.
    exists tc, slc. split_and!; try done.
    + intros e key. split; [by left|]. by intros [?|(i & ? & ?)].
  - apply Forall2_cons_inv_l in Hrest as (c & rsl' & Hslot & Hrest & ->).
    simpl in Hroom.
    destruct (grow_step_spec tc slc se c Hok Hslot ltac:(lia))
      as (tc1 & slc1 & Hstep & Hp1 & Hn1 & Hf1 & Hc1 & Hd1 & Hok1 & Hocc1 & Hmem1 & Hholds1).
    { intros key ->. apply Hfresh. left. }
    { intros h s ->. apply Hhash. left. }
    assert (Hlen1 : length slc1 = length slc).
    { destruct Hok as [_ _ Hl _], Hok1 as [_ _ Hl1 _]. lia. }
    destruct (IH rsl' tc1 slc1) as (tc' & slc' & Hloop & Hp & Hn & Hf & Hc & Hd & Hok' & Hocc & Hholds).
    + apply (slots_frame tc); [|done]. intros ? ? ?. by eapply slot_of_ext.
    + done.
    + rewrite Hocc1, Hlen1. destruct c; lia.
    + intros i j key Hi Hj. assert (S i = S j) by (by eapply Hnodup). lia.
    + intros key Hin [Hin1 | ->]%Hmem1.
      * by apply (Hfresh key); [right|].
      * apply list_elem_of_lookup_1 in Hin as [j Hj].
        assert (0%nat = S j) by (by eapply (Hnodup 0%nat (S j) key)). lia.
    + intros h s Hin. apply Hhash. by right.
    + exists tc', slc'. cbn [grow_loop]. unfold bind. rewrite Hstep.
      split_and!; try done; try congruence.
      * rewrite Hocc, Hocc1, occupied_cons. lia.
      * intros e key. rewrite Hholds, Hholds1. split.
        -- intros [[?|[-> ->]] | (i & Hi1 & Hi2)]; [by left| |].
           ++ right. by exists 0%nat.
           ++ right. by exists (S i).
        -- intros [?|(i & Hi1 & Hi2)]; [by left; left|].
           destruct i as [|i]; simpl in *.
           ++ left. right. split; congruence.
           ++ right. eauto.
Qed.

Lemma pow2_le_inv a b : 0 ≤ a → 0 ≤ b → 2 ^ a ≤ 2 ^ b → a ≤ b.
Proof. intros Ha Hb H. apply (Z.pow_le_mono_r_iff 2); lia. Qed.

(** [grow] doubles the capacity, leaves pools and count alone, and the new
    array holds exactly the entries of the old one, each where [findSlot]
    finds its key. *)
Lemma grow_spec t sl :
  table_ok t sl → tabledim t ≤ 2 ^ 50 →
  ∃ t' sl',
    grow t = Some (tt, t') ∧
    pools t' = pools t ∧ npools t' = npools t ∧ nfill t' = nfill t ∧
    count t' = count t ∧ tabledim t' = 2 * tabledim t ∧
    table_ok t' sl' ∧ occupied sl' = occupied sl ∧
    (∀ e key, holds t' sl' e key ↔ holds t sl e key).
Proof.
  intros [Habs (k & Hk & Hdim) Hlen Hfind] Hlim.
  assert (Hk50 : k ≤ 50) by (apply pow2_le_inv; lia).
  assert (Hpos : 0 < tabledim t) by (rewrite Hdim; apply Z.pow_pos_nonneg; lia).
  assert (Hdim2 : 2 * tabledim t = 2 ^ (k + 1)).
  { rewrite Z.pow_add_r, Hdim by lia. change (2 ^ 1) with 2. lia. }
  unfold grow, bind, gets, modify.
  rewrite (usize_small (tabledim t * 2)) by lia.
  cbn [tabledim set_tabledim table].
  pose proof (Forall2_length Habs) as Hlt.
  rewrite take_ge by lia.
  set (t1 := set_table _ (set_tabledim _ t)).
  destruct (grow_loop_spec (table t) sl t1 (replicate (Z.to_nat (tabledim t * 2)) None))
    as (t' & sl' & Hloop & Hp & Hn & Hf & Hc & Hd & Hok' & Hocc & Hholds).
  - apply (slots_frame t); [|done]. intros ? ? ?. by eapply slot_of_ext.
  - split.
    + unfold abstracts, t1, calloc. cbn [table set_table].
      apply Forall2_replicate. done.
    + exists (k + 1). split; [lia|]. unfold t1. cbn. lia.
    + rewrite length_replicate. unfold t1. cbn. lia.
    + intros p h s Hp. apply lookup_replicate in Hp as [? _]. done.
  - rewrite occupied_replicate, length_replicate. lia.
  - intros i j [h s] Hi Hj.
    destruct (Hfind i h s Hi) as [_ Hfi]. destruct (Hfind j h s Hj) as [_ Hfj].
    rewrite Hfi in Hfj. injection Hfj. lia.
  - intros key _ [? _]%elem_of_replicate. done.
  - intros h s [i Hi]%list_elem_of_lookup_1. by destruct (Hfind i h s Hi).
  - exists t', sl'. split_and!; try done.
    + rewrite Hd. unfold t1. cbn. lia.
    + by rewrite Hocc, occupied_replicate.
    + intros e key. rewrite Hholds. split.
      * intros [(i & _ & Hi) | ?]; [|done].
        apply lookup_replicate in Hi as [? _]. done.
      * intros ?. by right.
Qed.

(** ** The [double] comparison against the load factor *)

Module DoubleFacts.
Import SpecFloat Double.

Lemma digits2_pos_bounds p :
  2 ^ (Z.pos (digits2_pos p) - 1) ≤ Z.pos p < 2 ^ Z.pos (digits2_pos p).
Proof.
  induction p as [p IH|p IH|]; cbn [digits2_pos]; [| |done].
  all: rewrite Pos2Z.inj_succ.
  all: replace (Z.succ (Z.pos (digits2_pos p)) - 1) with (Z.succ (Z.pos (digits2_pos p) - 1)) by lia.
  all: rewrite !Z.pow_succ_r by lia; lia.
Qed.

Lemma digits_unique x d d' :
  0 < d → 0 < d' → 2 ^ (d - 1) ≤ x < 2 ^ d → 2 ^ (d' - 1) ≤ x < 2 ^ d' → d = d'.
Proof.
  intros Hd Hd' H H'.
  destruct (Z.lt_trichotomy d d') as [Hlt|[->|Hlt]]; [|done|].
  - assert (2 ^ d ≤ 2 ^ (d' - 1)) by (apply Z.pow_le_mono_r; lia). lia.
  - assert (2 ^ d' ≤ 2 ^ (d - 1)) by (apply Z.pow_le_mono_r; lia). lia.
Qed.

Lemma iter_xO p n : Z.pos (Pos.iter xO p n) = Z.pos p * 2 ^ Z.pos n.
Proof.
  induction n as [|n IH] using Pos.peano_ind.
  - cbn [Pos.iter]. lia.
  - rewrite Pos.iter_succ, Pos2Z.inj_xO, IH, Pos2Z.inj_succ, Z.pow_succ_r by lia. lia.
Qed.

(** A 53-bit mantissa with an exponent in range is a double as it stands. *)
Lemma round_canonical sx m e :
  Z.pos (digits2_pos m) = 53 → -1074 ≤ e ≤ 971 →
  binary_round_aux prec emax sx (Z.pos m) e loc_Exact = S754_finite sx m e.
Proof.
  intros Hd He. unfold binary_round_aux, shr_fexp.
  cbn [Zdigits2 shr_record_of_loc]. rewrite Hd.
  assert (Hf : fexp prec emax (53 + e) - e = 0).
  { unfold fexp, emin, prec, emax. lia. }
  rewrite Hf. cbn [shr shr_m loc_of_shr_record round_nearest_even Zdigits2 shr_record_of_loc].
  rewrite Hd, Hf. cbn [shr shr_m].
  destruct (Z.leb_spec e (emax - prec)); [done|]. unfold emax, prec in *. lia.
Qed.

(** Integers below [2^53] convert exactly, to a normalized mantissa. *)
Lemma of_Z_canonical p :
  Z.pos p < 2 ^ 53 →
  ∃ m, of_Z (Z.pos p) = S754_finite false m (Z.pos (digits2_pos p) - 53) ∧
       Z.pos (digits2_pos m) = 53 ∧
       Z.pos m = Z.pos p * 2 ^ (53 - Z.pos (digits2_pos p)).
Proof.
  intros Hp. pose proof (digits2_pos_bounds p) as Hb.
  set (d := Z.pos (digits2_pos p)) in *.
  assert (Hd : 0 < d ≤ 53).
  { split; [done|]. destruct (Z.le_gt_cases d 53) as [|Hgt]; [done|].
    assert (2 ^ 53 ≤ 2 ^ (d - 1)) by (apply Z.pow_le_mono_r; lia). lia. }
  unfold of_Z, binary_normalize, binary_round, shl_align. fold d.
  assert (Hf : fexp prec emax (d + 0) = d - 53).
  { unfold fexp, emin, prec, emax. lia. }
  rewrite Hf.
  destruct (Z.eq_dec d 53) as [Hd53|Hd53].
  - exists p. rewrite Hd53. change (53 - 53 - 0) with 0. change (53 - 53) with 0.
    cbv beta iota.
    rewrite round_canonical by (fold d; lia).
    split_and!; [done | fold d; lia |]. change (2 ^ (53 - 53)) with 1. lia.
  - assert (Hsh : d - 53 - 0 = Z.neg (Z.to_pos (53 - d))) by lia.
    rewrite Hsh. set (sh := Z.to_pos (53 - d)). cbv beta iota.
    exists (Pos.iter xO p sh).
    assert (Hm : Z.pos (Pos.iter xO p sh) = Z.pos p * 2 ^ (53 - d)).
    { rewrite iter_xO. do 2 f_equal. lia. }
    assert (Hdm : Z.pos (digits2_pos (Pos.iter xO p sh)) = 53).
    { apply (digits_unique (Z.pos (Pos.iter xO p sh))); [done|lia|apply digits2_pos_bounds|].
      rewrite Hm.
      replace (2 ^ (53 - 1)) with (2 ^ (d - 1) * 2 ^ (53 - d))
        by (rewrite <- Z.pow_add_r by lia; f_equal; lia).
      replace (2 ^ 53) with (2 ^ d * 2 ^ (53 - d))
        by (rewrite <- Z.pow_add_r by lia; f_equal; lia).
      assert (0 < 2 ^ (53 - d)) by (apply Z.pow_pos_nonneg; lia). nia. }
    rewrite round_canonical by (done || lia).
    done.
Qed.

Lemma gtb_finite m1 e1 m2 e2 :
  gtb (S754_finite false m1 e1) (S754_finite false m2 e2)
  = match e2 ?= e1 with
    | Lt => true
    | Gt => false
    | Eq => (Z.pos m2 <? Z.pos m1)
    end.
Proof.
  unfold gtb, SFltb, SFcompare. by destruct (e2 ?= e1).
Qed.


Lemma lit_0_8_eq : lit_0_8 = S754_finite false 7205759403792794 (-53).
Proof. vm_compute. reflexivity. Qed.

Lemma div_eucl_unique a b q r :
  0 ≤ r < b → a = b * q + r → Z.div_eucl a b = (q, r).
Proof.
  intros Hr Ha.
  assert (H : Z.div_eucl a b = (a / b, a mod b)).
  { unfold Z.div, Z.modulo. by destruct (Z.div_eucl a b). }
  rewrite H. f_equal.
  - symmetry. apply (Z.div_unique a b q r); [by left|done].
  - symmetry. apply (Z.mod_unique a b q r); [by left|done].
Qed.

Lemma digits_53 x : 2 ^ 52 ≤ Z.pos x < 2 ^ 53 → Z.pos (digits2_pos x) = 53.
Proof.
  intros Hx. apply (digits_unique (Z.pos x)); [done|lia|apply digits2_pos_bounds|done].
Qed.

Lemma digits_54 x : 2 ^ 53 ≤ Z.pos x < 2 ^ 54 → Z.pos (digits2_pos x) = 54.
Proof.
  intros Hx. apply (digits_unique (Z.pos x)); [done|lia|apply digits2_pos_bounds|done].
Qed.

(** Rounding a 53-bit quotient with a remainder above one half. *)
Lemma round_inexact_up sx q e :
  2 ^ 52 ≤ Z.pos q → Z.pos q + 1 < 2 ^ 53 → -1074 ≤ e ≤ 971 →
  binary_round_aux prec emax sx (Z.pos q) e (loc_Inexact Gt)
  = S754_finite sx (q + 1)%positive e.
Proof.
  intros Hlo Hhi He. unfold binary_round_aux, shr_fexp.
  cbn [Zdigits2 shr_record_of_loc]. rewrite (digits_53 q) by lia.
  assert (Hf : fexp prec emax (53 + e) - e = 0).
  { unfold fexp, emin, prec, emax. lia. }
  rewrite Hf. cbn [shr shr_m loc_of_shr_record round_nearest_even].
  change (Z.pos q + 1) with (Z.pos (q + 1)).
  cbn [Zdigits2 shr_record_of_loc]. rewrite (digits_53 (q + 1)) by lia.
  rewrite Hf. cbn [shr shr_m].
  destruct (Z.leb_spec e (emax - prec)); [done|]. unfold emax, prec in *. lia.
Qed.

(** Rounding a 54-bit odd quotient with a remainder below one half. *)
Lemma round_shift_up sx q e :
  2 ^ 53 ≤ Z.pos q~1 < 2 ^ 54 → 2 ^ 52 ≤ Z.pos q + 1 < 2 ^ 53 → -1074 ≤ e ≤ 970 →
  binary_round_aux prec emax sx (Z.pos q~1) e (loc_Inexact Lt)
  = S754_finite sx (q + 1)%positive (e + 1).
Proof.
  intros Hq Hq1 He. unfold binary_round_aux, shr_fexp.
  cbn [Zdigits2 shr_record_of_loc]. rewrite (digits_54 q~1) by lia.
  assert (Hf : fexp prec emax (54 + e) - e = 1).
  { unfold fexp, emin, prec, emax. lia. }
  rewrite Hf. cbn [shr iter_pos shr_1 orb shr_m loc_of_shr_record round_nearest_even].
  change (Z.pos q + 1) with (Z.pos (q + 1)).
  cbn [Zdigits2 shr_record_of_loc]. rewrite (digits_53 (q + 1)) by lia.
  assert (Hf' : fexp prec emax (53 + (e + 1)) - (e + 1) = 0).
  { unfold fexp, emin, prec, emax. lia. }
  rewrite Hf'. cbn [shr shr_m].
  destruct (Z.leb_spec (e + 1) (emax - prec)); [done|]. unfold emax, prec in *. lia.
Qed.

(** [tabledim * loadFactor] is exact for a capacity that is a power of two. *)
Lemma mul_pow2_loadFactor (k : nat) :
  (k ≤ 52)%nat →
  mul (of_Z (2 ^ Z.of_nat k)) lit_0_8
  = S754_finite false 7205759403792794 (Z.of_nat k - 53).
Proof.
  intros Hk.
  do 53 (destruct k as [|k]; [vm_compute; reflexivity|]). lia.
Qed.

(** The test [count > tabledim * loadFactor] of the source is the test
    [count > 4/5 * tabledim] on integers, for capacities up to [2^51]. *)
Lemma gtb_load c k :
  0 < c < 2 ^ 53 → 0 ≤ k ≤ 51 →
  gtb (of_Z c) (mul (of_Z (2 ^ k)) lit_0_8) = (4 * 2 ^ k <? 5 * c).
Proof.
  intros Hc Hk.
  rewrite <- (Z2Nat.id k) by lia. rewrite mul_pow2_loadFactor by lia.
  rewrite Z2Nat.id by lia.
  destruct c as [|p|p]; try lia.
  destruct (of_Z_canonical p) as (m & -> & Hdm & Hm); [lia|].
  pose proof (digits2_pos_bounds p) as Hb.
  set (d := Z.pos (digits2_pos p)) in *.
  rewrite gtb_finite.
  assert (Hd : 0 < d) by done.
  destruct (Z.compare_spec (k - 53) (d - 53)) as [Heq|Hlt|Hgt].
  - assert (k = d) as -> by lia.
    assert (Hw : 2 ^ d * 2 ^ (53 - d) = 2 ^ 53)
      by (rewrite <- Z.pow_add_r by lia; f_equal; lia).
    assert (H4 : 4 ≤ 2 ^ (53 - d)).
    { change 4 with (2 ^ 2). apply Z.pow_le_mono_r; lia. }
    rewrite Hm. set (w := 2 ^ (53 - d)) in *. set (P := 2 ^ d) in *.
    change (2 ^ 53) with 9007199254740992 in Hw.
    destruct (Z.ltb_spec 7205759403792794 (Z.pos p * w)),
             (Z.ltb_spec (4 * P) (5 * Z.pos p)); try done; nia.
  - assert (2 ^ k ≤ 2 ^ (d - 1)) by (apply Z.pow_le_mono_r; lia).
    symmetry. apply Z.ltb_lt. lia.
  - assert (2 ^ d ≤ 2 ^ (k - 1)) by (apply Z.pow_le_mono_r; lia).
    assert (2 ^ k = 2 * 2 ^ (k - 1)).
    { rewrite <- Z.pow_succ_r by lia. f_equal. lia. }
    symmetry. apply Z.ltb_ge. lia.
Qed.


(** [(size_t)(size / loadFactor)] is the integer quotient [5 * size / 4],
    for sizes below [2^50]. *)
Lemma div_loadFactor size :
  0 ≤ size < 2 ^ 50 →
  to_size (div (of_Z size) lit_0_8) = Some (5 * size / 4).
Proof.
  intros Hsize. destruct size as [|p|p]; [done| |lia].
  destruct (of_Z_canonical p) as (m & -> & Hdm & Hm); [lia|].
  rewrite lit_0_8_eq.
  pose proof (digits2_pos_bounds p) as Hb. pose proof (digits2_pos_bounds m) as Hbm.
  rewrite Hdm in Hbm.
  set (d := Z.pos (digits2_pos p)) in *.
  assert (Hd : 0 < d ≤ 50).
  { split; [done|]. destruct (Z.le_gt_cases d 50) as [|Hgt]; [done|].
    assert (2 ^ 50 ≤ 2 ^ (d - 1)) by (apply Z.pow_le_mono_r; lia). lia. }
  set (w := 2 ^ (50 - d)) in *.
  assert (Hw : 0 < w) by (apply Z.pow_pos_nonneg; lia).
  assert (Hm8 : Z.pos m = 8 * (Z.pos p * w)).
  { rewrite Hm. replace (53 - d) with (3 + (50 - d)) by lia.
    rewrite Z.pow_add_r by lia. fold w. lia. }
  set (m8 := Z.pos p * w) in *.
  unfold div, SFdiv, SFdiv_core_binary. cbn [xorb Zdigits2]. rewrite Hdm.
  change (Z.pos (digits2_pos 7205759403792794)) with 53.
  assert (He' : Z.min (fexp prec emax (53 + (d - 53) - (53 + -53))) (d - 53 - -53) = d - 53).
  { unfold fexp, emin, prec, emax. lia. }
  rewrite He'. replace (d - 53 - -53 - (d - 53)) with 53 by lia. cbv iota beta.
  rewrite Z.shiftl_mul_pow2 by lia.
  rewrite (div_eucl_unique _ _ (10 * m8 - 1) (7205759403792794 - 4 * m8)) by lia.
  unfold new_location. change (Z.even 7205759403792794) with true. cbv iota.
  unfold new_location_even.
  destruct (Z.eqb_spec (7205759403792794 - 4 * m8) 0) as [Hz|_]; [lia|].
  assert (Hpow : 2 ^ (53 - d) = 8 * w).
  { replace (53 - d) with (3 + (50 - d)) by lia. by rewrite Z.pow_add_r by lia. }
  assert (Hquot : ∀ x, x * w / (4 * w) = x / 4).
  { intros x. rewrite Z.div_mul_cancel_r by lia. done. }
  change (2 ^ (53 - 1)) with 4503599627370496 in Hbm.
  change (2 ^ 53) with 9007199254740992 in Hbm.
  destruct (10 * m8 - 1) as [|q|q] eqn:Hq; try lia.
  destruct (Z.compare_spec (2 * (7205759403792794 - 4 * m8)) 7205759403792794)
    as [Heq|Hlt|Hgt].
  - lia.
  - (* the quotient has 54 bits *)
    destruct q as [q|q|]; try lia.
    rewrite round_shift_up by lia.
    unfold to_size. destruct (Z.leb_spec 0 (d - 53 + 1)); [lia|].
    replace (Z.pos (q + 1)) with (5 * Z.pos p * w) by lia.
    replace (- (d - 53 + 1)) with (2 + (50 - d)) by lia.
    rewrite Z.pow_add_r by lia. fold w. change (2 ^ 2) with 4. rewrite Hquot.
    destruct (Z.ltb_spec (5 * Z.pos p / 4) (2 ^ 64)); [done|].
    assert (5 * Z.pos p / 4 ≤ 5 * Z.pos p) by (apply Z.div_le_upper_bound; lia). lia.
  - (* the quotient has 53 bits *)
    rewrite round_inexact_up by lia.
    unfold to_size. destruct (Z.leb_spec 0 (d - 53)); [lia|].
    replace (Z.pos (q + 1)) with (2 * (5 * Z.pos p) * w) by lia.
    replace (- (d - 53)) with (53 - d) by lia. rewrite Hpow.
    replace (8 * w) with (2 * (4 * w)) by lia.
    rewrite <- Z.mul_assoc, Z.div_mul_cancel_l, Hquot by lia.
    destruct (Z.ltb_spec (5 * Z.pos p / 4) (2 ^ 64)); [done|].
    assert (5 * Z.pos p / 4 ≤ 5 * Z.pos p) by (apply Z.div_le_upper_bound; lia). lia.
Qed.

End DoubleFacts.

(** ** Insertion into the table *)

Lemma over_load_spec t k :
  tabledim t = 2 ^ k → 0 ≤ k ≤ 51 → 0 ≤ count t < 2 ^ 53 - 1 →
  over_load t = Some (4 * tabledim t <? 5 * (count t + 1), set_count (count t + 1) t).
Proof.
  intros Hdim Hk Hc. unfold over_load, bind, gets, modify, ret.
  cbn [count set_count tabledim].
  rewrite usize_small by lia. unfold loadFactor.
  by rewrite Hdim, DoubleFacts.gtb_load by lia.
Qed.

Lemma holds_ext t t' sl e key :
  table t' = table t → holds t sl e key → holds t' sl e key.
Proof. unfold holds. by intros ->. Qed.

(** Putting the key [(h, s)] into the empty slot that [findSlot] returned
    for it keeps the table invariant. *)
Lemma table_ok_insert t t' sl h s (i : Z) e :
  table_ok t sl →
  find (tabledim t) sl h s = Some i → sl !! Z.to_nat i = Some None →
  h = Hasher.calcHash s (Z.of_nat (length s)) →
  table t' = <[Z.to_nat i := e]> (table t) → tabledim t' = tabledim t →
  (∀ e c, slot_of t e c → slot_of t' e c) → slot_of t' e (Some (h, s)) →
  table_ok t' (<[Z.to_nat i := Some (h, s)]> sl) ∧
  occupied (<[Z.to_nat i := Some (h, s)]> sl) = S (occupied sl) ∧
  (∀ e' key, holds t' (<[Z.to_nat i := Some (h, s)]> sl) e' key ↔
             holds t sl e' key ∨ (e' = e ∧ key = (h, s))).
Proof.
  intros [Habs (k & Hk & Hdim) Hlen Hfind] Hi Hci Hh Htab Hdim' Hframe Hnew.
  destruct (find_inv k (tabledim t) sl ltac:(lia) Hdim h s i Hi) as (Hirange & _).
  assert (Hci' : (Z.to_nat i < length sl)%nat) by (by eapply lookup_lt_Some).
  pose proof (Forall2_length Habs) as Hlt.
  split_and!.
  - split.
    + unfold abstracts. rewrite Htab. apply Forall2_insert; [|done].
      by apply (slots_frame t).
    + exists k. by rewrite Hdim'.
    + rewrite length_insert. by rewrite Hdim'.
    + intros p h' s' Hp. rewrite Hdim'.
      destruct (decide (p = Z.to_nat i)) as [->|Hne].
      * rewrite list_lookup_insert_eq in Hp by done. injection Hp as <- <-.
        split; [done|]. rewrite Z2Nat.id by lia.
        apply (find_insert_same k); (done || lia).
      * rewrite list_lookup_insert_ne in Hp by done.
        destruct (Hfind p h' s' Hp) as [Hh' Hf']. split; [done|].
        apply (find_insert_other k); try done; lia.
  - by apply occupied_insert.
  - intros e' key. unfold holds. rewrite Htab. split.
    + intros (j & Hje & Hjk).
      destruct (decide (j = Z.to_nat i)) as [->|Hne].
      * rewrite list_lookup_insert_eq in Hje by lia.
        rewrite list_lookup_insert_eq in Hjk by done.
        injection Hje as <-. injection Hjk as <-. by right.
      * rewrite list_lookup_insert_ne in Hje by done.
        rewrite list_lookup_insert_ne in Hjk by done. left. eauto.
    + intros [(j & Hje & Hjk) | [-> ->]].
      * destruct (decide (j = Z.to_nat i)) as [->|Hne]; [congruence|].
        exists j. by rewrite !list_lookup_insert_ne.
      * exists (Z.to_nat i). rewrite !list_lookup_insert_eq by lia. done.
Qed.

Lemma alloc_result_ext t t' s :
  pools t' = pools t → npools t' = npools t → nfill t' = nfill t →
  (alloc_result s t').1 = (alloc_result s t).1 ∧
  pools (alloc_result s t').2 = pools (alloc_result s t).2 ∧
  npools (alloc_result s t').2 = npools (alloc_result s t).2 ∧
  nfill (alloc_result s t').2 = nfill (alloc_result s t).2 ∧
  table (alloc_result s t').2 = table t' ∧
  tabledim (alloc_result s t').2 = tabledim t' ∧
  count (alloc_result s t').2 = count t'.
Proof.
  intros Hp Hn Hf. unfold alloc_result, alloc_fresh. rewrite Hp, Hn, Hf. done.
Qed.

Lemma alloc_ok_ext t t' :
  pools t' = pools t → npools t' = npools t → nfill t' = nfill t →
  alloc_ok t → alloc_ok t'.
Proof. intros Hp Hn Hf [? ? ? ? ?]. split; rewrite ?Hp, ?Hn, ?Hf; done. Qed.

Lemma table_ok_ext t t' sl :
  table t' = table t → tabledim t' = tabledim t →
  pools t' = pools t → npools t' = npools t → nfill t' = nfill t →
  table_ok t sl → table_ok t' sl.
Proof.
  intros Ht Hd Hp Hn Hf [Habs Hdim Hlen Hfind]. split; rewrite ?Hd; try done.
  unfold abstracts. rewrite Ht. apply (slots_frame t); [|done].
  intros ? ? ?. by eapply slot_of_ext.
Qed.

Lemma claim_slot_spec_dim t sl s (i : Z) :
  let len := Z.of_nat (length s) in
  let h := Hasher.calcHash s len in
  table_ok t sl → alloc_ok t →
  Z.of_nat (occupied sl) = count t → 5 * count t ≤ 4 * tabledim t →
  in_limits t s →
  find (tabledim t) sl h s = Some i → sl !! Z.to_nat i = Some None →
  ∃ i' t' sl',
    claim_slot h s len i t = Some (i', t') ∧
    table_ok t' sl' ∧ alloc_ok t' ∧
    Z.of_nat (occupied sl') = count t' ∧ 5 * count t' ≤ 4 * tabledim t' ∧
    count t' = count t + 1 ∧
    (tabledim t' = tabledim t ∨ tabledim t' = 2 * tabledim t) ∧
    pools t' = pools (alloc_result s t).2 ∧
    npools t' = npools (alloc_result s t).2 ∧
    nfill t' = nfill (alloc_result s t).2 ∧
    0 ≤ i' ∧
    table t' !! Z.to_nat i' = Some (mkEntry h (alloc_result s t).1) ∧
    sl' !! Z.to_nat i' = Some (Some (h, s)) ∧
    (∀ e key, holds t' sl' e key ↔
              holds t sl e key ∨ (e = mkEntry h (alloc_result s t).1 ∧ key = (h, s))) ∧
    tabledim t' = (if 4 * tabledim t <? 5 * (count t + 1)
                   then 2 * tabledim t else tabledim t).
Proof.
  intros len h Hok Halloc Hocc Hload (Hlim1 & Hlim2 & Hlim3) Hfind Hempty.
  pose proof Hok as [Habs (k & Hk & Hdim) Hlen Hfindall].
  assert (Hk50 : k ≤ 50) by (apply pow2_le_inv; lia).
  assert (Hdim32 : 32 ≤ tabledim t).
  { rewrite Hdim. change 32 with (2 ^ 5). apply Z.pow_le_mono_r; lia. }
  assert (Hcnt : 0 ≤ count t < 2 ^ 53 - 1) by lia.
  unfold claim_slot. unfold bind at 1. rewrite (over_load_spec t k) by (done || lia).
  set (t1 := set_count (count t + 1) t).
  assert (Hok1 : table_ok t1 sl) by (by apply (table_ok_ext t)).
  (* after the optional growth *)
  assert (∃ i2 t2 sl2,
    (if 4 * tabledim t <? 5 * (count t + 1)
     then let! _ := grow in findSlot h s len else ret i) t1 = Some (i2, t2) ∧
    table_ok t2 sl2 ∧ pools t2 = pools t ∧ npools t2 = npools t ∧ nfill t2 = nfill t ∧
    count t2 = count t + 1 ∧ occupied sl2 = occupied sl ∧
    (tabledim t2 = tabledim t ∨ tabledim t2 = 2 * tabledim t) ∧
    5 * (count t + 1) ≤ 4 * tabledim t2 ∧
    find (tabledim t2) sl2 h s = Some i2 ∧ sl2 !! Z.to_nat i2 = Some None ∧
    (∀ e key, holds t2 sl2 e key ↔ holds t sl e key) ∧
    tabledim t2 = (if 4 * tabledim t <? 5 * (count t + 1)
                   then 2 * tabledim t else tabledim t))
    as (i2 & t2 & sl2 & Hrun & Hok2 & Hp2 & Hn2 & Hf2 & Hc2 & Hocc2 & Hdim2 & Hload2
        & Hfind2 & Hempty2 & Hholds2 & Hexact).
  { destruct (Z.ltb_spec (4 * tabledim t) (5 * (count t + 1))) as [Hover|Hunder].
    - destruct (grow_spec t1 sl Hok1 Hlim2)
        as (t2 & sl2 & Hgrow & Hp2 & Hn2 & Hf2 & Hc2 & Hd2 & Hok2 & Hocc2 & Hholds2).
      pose proof Hok2 as [Habs2 (k2 & Hk2 & Hdimk2) Hlen2 Hfindall2].
      unfold bind. rewrite Hgrow.
      rewrite (findSlot_abs t2 sl2 k2 Habs2 ltac:(lia) Hdimk2 Hlen2).
      destruct (find_total k2 (tabledim t2) sl2 ltac:(lia) Hdimk2 Hlen2 h s None) as [i2 Hi2];
        [|done|].
      { apply occupied_lt_empty. pose proof (occupied_le sl). cbn in Hd2. lia. }
      rewrite Hi2. cbn [fmap option_fmap option_map].
      destruct (find_inv k2 (tabledim t2) sl2 ltac:(lia) Hdimk2 h s i2 Hi2)
        as (Hirange & m & Hm & Him & Hrej & ci & Hci & Hacc).
      assert (ci = None) as ->.
      { destruct ci as [[h' s']|]; [|done]. simpl in Hacc.
        apply bool_decide_eq_true in Hacc as [-> ->]. exfalso.
        destruct (Forall2_lookup_r _ _ _ _ _ Habs2 Hci) as (e & He & _).
        assert (Hh : holds t2 sl2 e (h, s)) by (by exists (Z.to_nat i2)).
        apply Hholds2 in Hh as (j & _ & Hj).
        destruct (Hfindall j h s Hj) as [_ Hfj]. cbn in Hfj.
        rewrite Hfind in Hfj. injection Hfj as ->.
        rewrite Nat2Z.id in Hempty. congruence. }
      exists i2, t2, sl2. cbn in *. split_and!; try done; try lia.
    - exists i, t1, sl. unfold ret. cbn. split_and!; try done; try lia. }
  unfold bind at 1. rewrite Hrun.
  pose proof Hok2 as [Habs2 (k2 & Hk2 & Hdimk2) Hlen2 Hfindall2].
  destruct (find_inv k2 (tabledim t2) sl2 ltac:(lia) Hdimk2 h s i2 Hfind2) as (Hirange & _).
  destruct (Forall2_lookup_r _ _ _ _ _ Habs2 Hempty2) as (e0 & He0 & Hslot0).
  simpl in Hslot0.
  unfold bind at 1. rewrite (table_upd_ok t2 i2 _ e0) by (done || lia).
  set (t3 := set_table _ t2).
  assert (Halloc3 : alloc_ok t3) by (by apply (alloc_ok_ext t)).
  unfold bind at 1. unfold len. rewrite (allocValue_eq t3 s Halloc3) by (cbn; lia).
  destruct (alloc_result_ext t t3 s) as (Hvp & Hp4 & Hn4 & Hf4 & Ht4 & Hd4 & Hc4); try done.
  destruct (alloc_result s t3) as [vp t4] eqn:Hres. cbn [fst snd] in *.
  assert (He3 : table t4 !! Z.to_nat i2 = Some (mkEntry h (vptr e0))).
  { rewrite Ht4. unfold t3. cbn. apply list_lookup_insert_eq. by eapply lookup_lt_Some. }
  unfold bind at 1. rewrite (table_upd_ok t4 i2 _ _ ltac:(lia) He3).
  set (t5 := set_table _ t4). unfold ret. cbn [hash].
  assert (Htab5 : table t5 = <[Z.to_nat i2 := mkEntry h vp]> (table t2)).
  { unfold t5. cbn. rewrite Ht4. unfold t3. cbn. by rewrite list_insert_insert_eq. }
  assert (Hrec_frame : ∀ vq sq, record_at t2 vq sq → record_at t5 vq sq).
  { intros vq sq Hr. apply (record_at_ext t4); try done.
    replace t4 with (alloc_result s t3).2 by (by rewrite Hres).
    apply alloc_result_frame; try done; try (cbn; lia). }
  assert (Hrec_new : record_at t5 vp s).
  { apply (record_at_ext t4); try done.
    replace t4 with (alloc_result s t3).2 by (by rewrite Hres).
    replace vp with (alloc_result s t3).1 by (by rewrite Hres).
    apply alloc_result_record; try done; try (cbn; lia). }
  destruct (table_ok_insert t2 t5 sl2 h s i2 (mkEntry h vp) Hok2 Hfind2 Hempty2 eq_refl Htab5)
    as (Hok5 & Hocc5 & Hholds5).
  { unfold t5. cbn. rewrite Hd4. done. }
  { intros e [[hq sq]|]; simpl; [|done]. intros [? ?]. split; [done|]. by apply Hrec_frame. }
  { simpl. done. }
  exists i2, t5, (<[Z.to_nat i2 := Some (h, s)]> sl2).
  assert (Hi2len : (Z.to_nat i2 < length sl2)%nat) by (by eapply lookup_lt_Some).
  pose proof (Forall2_length Habs2) as Hlt2.
  split_and!; try done.
  - apply (alloc_ok_ext t4); try done.
    replace t4 with (alloc_result s t3).2 by (by rewrite Hres).
    apply alloc_result_ok; try done; try (cbn; lia).
  - rewrite Hocc5. unfold t5. cbn. rewrite Hc4. unfold t3. cbn. lia.
  - unfold t5. cbn. rewrite Hc4, Hd4. unfold t3. cbn. lia.
  - unfold t5. cbn. rewrite Hc4. unfold t3. cbn. lia.
  - unfold t5. cbn. rewrite Hd4. unfold t3. cbn. done.
  - lia.
  - rewrite Htab5, <- Hvp. apply list_lookup_insert_eq. lia.
  - by apply list_lookup_insert_eq.
  - intros e key. rewrite Hholds5, Hholds2, Hvp. done.
  - unfold t5. cbn. rewrite Hd4. unfold t3. cbn. done.
Qed.

Lemma claim_slot_spec t sl s (i : Z) :
  let len := Z.of_nat (length s) in
  let h := Hasher.calcHash s len in
  table_ok t sl → alloc_ok t →
  Z.of_nat (occupied sl) = count t → 5 * count t ≤ 4 * tabledim t →
  in_limits t s →
  find (tabledim t) sl h s = Some i → sl !! Z.to_nat i = Some None →
  ∃ i' t' sl',
    claim_slot h s len i t = Some (i', t') ∧
    table_ok t' sl' ∧ alloc_ok t' ∧
    Z.of_nat (occupied sl') = count t' ∧ 5 * count t' ≤ 4 * tabledim t' ∧
    count t' = count t + 1 ∧
    (tabledim t' = tabledim t ∨ tabledim t' = 2 * tabledim t) ∧
    pools t' = pools (alloc_result s t).2 ∧
    npools t' = npools (alloc_result s t).2 ∧
    nfill t' = nfill (alloc_result s t).2 ∧
    0 ≤ i' ∧
    table t' !! Z.to_nat i' = Some (mkEntry h (alloc_result s t).1) ∧
    sl' !! Z.to_nat i' = Some (Some (h, s)) ∧
    (∀ e key, holds t' sl' e key ↔
              holds t sl e key ∨ (e = mkEntry h (alloc_result s t).1 ∧ key = (h, s))).
Proof.
  intros len h Hok Halloc Hocc Hload Hlim Hfind Hempty.
  destruct (claim_slot_spec_dim t sl s i Hok Halloc Hocc Hload Hlim Hfind Hempty)
    as (i' & t' & sl' & H1 & H2 & H3 & H4 & H5 & H6 & H7 & H8 & H9 & H10 & H11 & H12
        & H13 & H14 & _).
  exists i', t', sl'. split_and!; done.
Qed.

(** ** [lookup], [insert], [update] on a well-formed table *)

Lemma getValue_slot t e c :
  slot_of t e c → getValue (vptr e) t = Some (ptr_of (vptr e), t).
Proof.
  destruct c as [[h s]|]; simpl.
  - intros [_ Hrec]. rewrite (getValue_ok t _ s Hrec). unfold ptr_of.
    destruct Hrec as [Hnz _]. by destruct (Z.eqb_spec (vptr e) 0).
  - intros ->. done.
Qed.

Lemma wf_room t sl :
  table_ok t sl → Z.of_nat (occupied sl) = count t → 5 * count t ≤ 4 * tabledim t →
  (occupied sl < length sl)%nat.
Proof.
  intros [_ (k & Hk & Hdim) Hlen _] Hocc Hload.
  assert (0 < tabledim t) by (rewrite Hdim; apply Z.pow_pos_nonneg; lia). lia.
Qed.

(** What [findSlot] returns on a table with room: the slot of the key if it
    is present, an empty slot otherwise. *)
Lemma findSlot_spec t sl s :
  let len := Z.of_nat (length s) in
  let h := Hasher.calcHash s len in
  table_ok t sl → (occupied sl < length sl)%nat →
  ∃ (i : Z) e c,
    findSlot h s len t = Some (i, t) ∧ table_get i t = Some (e, t) ∧
    find (tabledim t) sl h s = Some i ∧ 0 ≤ i ∧
    table t !! Z.to_nat i = Some e ∧ sl !! Z.to_nat i = Some c ∧ slot_of t e c ∧
    (c = None ∨ c = Some (h, s)).
Proof.
  intros len h [Habs (k & Hk & Hdim) Hlen Hfind] Hroom. subst h len.
  rewrite (findSlot_abs t sl k Habs ltac:(lia) Hdim Hlen).
  destruct (find_total k (tabledim t) sl ltac:(lia) Hdim Hlen
              (Hasher.calcHash s (Z.of_nat (length s))) s None) as [i Hi];
    [by apply occupied_lt_empty|done|].
  destruct (find_inv k (tabledim t) sl ltac:(lia) Hdim _ s i Hi)
    as (Hirange & m & Hm & Him & Hrej & c & Hc & Hacc).
  destruct (Forall2_lookup_r _ _ _ _ _ Habs Hc) as (e & He & Hslot).
  exists i, e, c. rewrite Hi. split_and!; try done; try lia.
  - unfold table_get. destruct (Z.ltb_spec i 0); [lia|]. by rewrite He.
  - destruct c as [[h' s']|]; [|by left]. right. simpl in Hacc.
    by apply bool_decide_eq_true in Hacc as [-> ->].
Qed.

Lemma lookup_spec t sl s :
  let len := Z.of_nat (length s) in
  let h := Hasher.calcHash s len in
  table_ok t sl → (occupied sl < length sl)%nat →
  ∃ (i : Z) e c,
    lookup s len t = Some (ptr_of (vptr e), t) ∧
    table t !! Z.to_nat i = Some e ∧ sl !! Z.to_nat i = Some c ∧ slot_of t e c ∧
    (c = None ∨ c = Some (h, s)).
Proof.
  intros len h Hok Hroom. subst h len.
  destruct (findSlot_spec t sl s Hok Hroom)
    as (i & e & c & Hfs & Hget & Hfind & Hi & He & Hc & Hslot & Hcase).
  exists i, e, c. unfold lookup, bind. rewrite Hfs, Hget.
  by rewrite (getValue_slot t e c).
Qed.

Lemma ptr_of_Some_iff vp : is_Some (ptr_of vp) ↔ vp ≠ 0.
Proof.
  unfold ptr_of. destruct (Z.eqb_spec vp 0); split; try done.
Qed.


(** [insert] of a key that is in the table. *)
Lemma insert_present t sl s e :
  let len := Z.of_nat (length s) in
  let h := Hasher.calcHash s len in
  table_ok t sl → (occupied sl < length sl)%nat →
  holds t sl e (h, s) →
  insert s len t = Some (None, t) ∧
  update s len t = Some (ptr_of (vptr e), t) ∧
  lookup s len t = Some (ptr_of (vptr e), t).
Proof.
  intros len h Hok Hroom (j & Hje & Hjk). subst h len.
  destruct (findSlot_spec t sl s Hok Hroom)
    as (i & e' & c & Hfs & Hget & Hfind & Hi & He & Hc & Hslot & Hcase).
  pose proof Hok as [Habs _ _ Hfindall].
  destruct (Hfindall j _ s Hjk) as [_ Hfj].
  rewrite Hfind in Hfj. injection Hfj as ->. rewrite Nat2Z.id in *.
  assert (e' = e) as -> by congruence.
  assert (c = Some (Hasher.calcHash s (Z.of_nat (length s)), s)) as -> by congruence.
  assert (Hnz : vptr e ≠ 0) by (simpl in Hslot; by destruct Hslot as [_ [? _]]).
  unfold insert, update, lookup, bind. rewrite Hfs, Hget.
  destruct (Z.eqb_spec (vptr e) 0); [done|]. cbn [negb]. unfold ret.
  rewrite Hget, (getValue_slot t e _ Hslot). done.
Qed.

(** [insert] and [update] of a key that is not in the table: both claim
    the empty slot that [findSlot] returns and allocate a record. *)
Lemma insert_absent_dim t sl s :
  table_ok t sl → alloc_ok t →
  Z.of_nat (occupied sl) = count t → 5 * count t ≤ 4 * tabledim t →
  in_limits t s →
  (∀ e, ¬ holds t sl e (Hasher.calcHash s (Z.of_nat (length s)), s)) →
  ∃ t' sl',
    let h := Hasher.calcHash s (Z.of_nat (length s)) in
    let vp := (alloc_result s t).1 in
    insert s (Z.of_nat (length s)) t = Some (ptr_of vp, t') ∧
    update s (Z.of_nat (length s)) t = Some (ptr_of vp, t') ∧
    vp ≠ 0 ∧ record_at t' vp s ∧
    table_ok t' sl' ∧ alloc_ok t' ∧
    Z.of_nat (occupied sl') = count t' ∧ 5 * count t' ≤ 4 * tabledim t' ∧
    count t' = count t + 1 ∧
    (tabledim t' = tabledim t ∨ tabledim t' = 2 * tabledim t) ∧
    pools t' = pools (alloc_result s t).2 ∧
    npools t' = npools (alloc_result s t).2 ∧
    nfill t' = nfill (alloc_result s t).2 ∧
    (∀ e key, holds t' sl' e key ↔
              holds t sl e key ∨ (e = mkEntry h vp ∧ key = (h, s))) ∧
    tabledim t' = (if 4 * tabledim t <? 5 * (count t + 1)
                   then 2 * tabledim t else tabledim t).
Proof.
  intros Hok Halloc Hocc Hload Hlim Habsent.
  pose proof (wf_room t sl Hok Hocc Hload) as Hroom.
  destruct (findSlot_spec t sl s Hok Hroom)
    as (i & e & c & Hfs & Hget & Hfind & Hi & He & Hc & Hslot & Hcase).
  destruct Hcase as [-> | ->].
  2:{ exfalso. apply (Habsent e). by exists (Z.to_nat i). }
  simpl in Hslot.
  destruct (claim_slot_spec_dim t sl s i Hok Halloc Hocc Hload Hlim Hfind Hc)
    as (i' & t' & sl' & Hclaim & Hok' & Halloc' & Hocc' & Hload' & Hcnt & Hdim & Hp & Hn & Hf
        & Hi' & He' & Hc' & Hholds & Hexact).
  exists t', sl'. cbn zeta.
  set (h := Hasher.calcHash s (Z.of_nat (length s))) in *.
  set (vp := (alloc_result s t).1) in *.
  pose proof Hok' as [Habs' _ _ _].
  destruct (Forall2_lookup_r _ _ _ _ _ Habs' Hc') as (e2 & He2 & Hslot2).
  assert (e2 = mkEntry h vp) as -> by congruence.
  assert (Hget' : table_get i' t' = Some (mkEntry h vp, t')).
  { unfold table_get. destruct (Z.ltb_spec i' 0); [lia|]. by rewrite He'. }
  pose proof (getValue_slot t' _ _ Hslot2) as Hgv. cbn [vptr] in Hgv.
  destruct Hslot2 as [_ Hrec]. cbn [vptr] in Hrec.
  split_and!; try done.
  - unfold insert, bind. fold h. rewrite Hfs, Hget, Hslot. cbn [Z.eqb negb].
    rewrite Hclaim, Hget'. done.
  - unfold update, bind. fold h. rewrite Hfs, Hget, Hslot. cbn [Z.eqb].
    rewrite Hclaim, Hget'. done.
  - by destruct Hrec.
Qed.

Lemma insert_absent t sl s :
  table_ok t sl → alloc_ok t →
  Z.of_nat (occupied sl) = count t → 5 * count t ≤ 4 * tabledim t →
  in_limits t s →
  (∀ e, ¬ holds t sl e (Hasher.calcHash s (Z.of_nat (length s)), s)) →
  ∃ t' sl',
    let h := Hasher.calcHash s (Z.of_nat (length s)) in
    let vp := (alloc_result s t).1 in
    insert s (Z.of_nat (length s)) t = Some (ptr_of vp, t') ∧
    update s (Z.of_nat (length s)) t = Some (ptr_of vp, t') ∧
    vp ≠ 0 ∧ record_at t' vp s ∧
    table_ok t' sl' ∧ alloc_ok t' ∧
    Z.of_nat (occupied sl') = count t' ∧ 5 * count t' ≤ 4 * tabledim t' ∧
    count t' = count t + 1 ∧
    (tabledim t' = tabledim t ∨ tabledim t' = 2 * tabledim t) ∧
    pools t' = pools (alloc_result s t).2 ∧
    npools t' = npools (alloc_result s t).2 ∧
    nfill t' = nfill (alloc_result s t).2 ∧
    (∀ e key, holds t' sl' e key ↔
              holds t sl e key ∨ (e = mkEntry h vp ∧ key = (h, s))).
Proof.
  intros Hok Halloc Hocc Hload Hlim Habsent.
  destruct (insert_absent_dim t sl s Hok Halloc Hocc Hload Hlim Habsent)
    as (t' & sl' & H1 & H2 & H3 & H4 & H5 & H6 & H7 & H8 & H9 & H10 & H11 & H12 & H13
        & H14 & _).
  exists t', sl'. cbn zeta in *. split_and!; done.
Qed.

(** Presence of a key is decided by the slot that [findSlot] returns. *)
Lemma key_cases t sl s :
  table_ok t sl → (occupied sl < length sl)%nat →
  (∃ e, holds t sl e (Hasher.calcHash s (Z.of_nat (length s)), s)) ∨
  (∀ e, ¬ holds t sl e (Hasher.calcHash s (Z.of_nat (length s)), s)).
Proof.
  intros Hok Hroom.
  destruct (findSlot_spec t sl s Hok Hroom)
    as (i & e & c & Hfs & Hget & Hfind & Hi & He & Hc & Hslot & Hcase).
  destruct Hcase as [-> | ->].
  - right. intros e' (j & Hje & Hjk).
    destruct Hok as [_ _ _ Hfindall]. destruct (Hfindall j _ s Hjk) as [_ Hfj].
    rewrite Hfind in Hfj. injection Hfj as ->. rewrite Nat2Z.id in Hc. congruence.
  - left. exists e. by exists (Z.to_nat i).
Qed.

Lemma lookup_absent t sl s :
  table_ok t sl → (occupied sl < length sl)%nat →
  (∀ e, ¬ holds t sl e (Hasher.calcHash s (Z.of_nat (length s)), s)) →
  lookup s (Z.of_nat (length s)) t = Some (None, t).
Proof.
  intros Hok Hroom Habsent.
  destruct (lookup_spec t sl s Hok Hroom) as (i & e & c & Hl & He & Hc & Hslot & Hcase).
  destruct Hcase as [-> | ->].
  - simpl in Hslot. rewrite Hl, Hslot. done.
  - exfalso. apply (Habsent e). by exists (Z.to_nat i).
Qed.

Lemma holds_record t sl e key :
  table_ok t sl → holds t sl e key →
  hash e = key.1 ∧ record_at t (vptr e) key.2 ∧ vptr e ≠ 0 ∧
  key.1 = Hasher.calcHash key.2 (Z.of_nat (length key.2)).
Proof.
  intros [Habs _ _ Hfindall] (j & Hje & Hjk). destruct key as [h s].
  destruct (Forall2_lookup_r _ _ _ _ _ Habs Hjk) as (e' & He' & Hslot).
  assert (e' = e) as -> by congruence. simpl in Hslot. destruct Hslot as [Hh Hrec].
  destruct (Hfindall j h s Hjk) as [Hhs _].
  split_and!; try done. by destruct Hrec.
Qed.

(** Reading a record through the pointer of its handle. *)
Lemma read_record_ok t vp s :
  record_at t vp s →
  read_record (mkPtr (decode_pool vp) (decode_off vp)) t
  = Some ((Z.of_nat (length s), s, ["000"%byte]), t).
Proof.
  intros Hrec. unfold read_record.
  unfold bind at 1. rewrite (sv_length_ok t vp s Hrec).
  unfold bind at 1. rewrite (sv_lstring_ok t vp s Hrec).
  destruct Hrec as (Hnz & Hlen & p & Hp & Hrl & Hrs & Hrz & _).
  unfold bind. cbn [sv_pool sv_off].
  by rewrite (load_ok t _ _ _ p _ (record_pool_nonneg vp) Hp Hrz).
Qed.

(** ** Construction *)

Lemma nextpow2_loop_spec v fuel : ∀ j,
  0 ≤ j ≤ 63 → v ≤ 2 ^ 63 → (j = 0 ∨ 2 ^ (j - 1) < v) →
  (64 - j < Z.of_nat fuel) →
  ∃ k, j ≤ k ≤ 63 ∧ nextpow2_loop fuel (2 ^ j) v = Some (2 ^ k) ∧
       v ≤ 2 ^ k ∧ (k = 0 ∨ 2 ^ (k - 1) < v).
Proof.
  induction fuel as [|fuel IH]; intros j Hj Hv Hlow Hfuel; [lia|].
  cbn [nextpow2_loop].
  destruct (Z.ltb_spec (2 ^ j) v) as [Hlt|Hge].
  - assert (j < 63).
    { destruct (Z.eq_dec j 63) as [->|]; lia. }
    assert (Hsh : usize (Z.shiftl (2 ^ j) 1) = 2 ^ (j + 1)).
    { rewrite Z.shiftl_mul_pow2 by lia. change (2 ^ 1) with 2.
      rewrite Z.pow_add_r by lia. change (2 ^ 1) with 2.
      apply usize_small.
      assert (2 ^ j ≤ 2 ^ 62) by (apply Z.pow_le_mono_r; lia).
      assert (0 < 2 ^ j) by (apply Z.pow_pos_nonneg; lia). lia. }
    rewrite Hsh.
    destruct (IH (j + 1)) as (k & Hk & Hrun & Hup & Hlo); try lia.
    { right. by replace (j + 1 - 1) with j by lia. }
    exists k. split_and!; try done; lia.
  - exists j. split_and!; try done; lia.
Qed.

Lemma nextpow2_spec v :
  v ≤ 2 ^ 63 →
  ∃ k, 0 ≤ k ≤ 63 ∧ nextpow2 v = Some (2 ^ k) ∧ v ≤ 2 ^ k ∧ (k = 0 ∨ 2 ^ (k - 1) < v).
Proof.
  intros Hv. unfold nextpow2.
  destruct (nextpow2_loop_spec v 66 0) as (k & Hk & Hrun & Hup & Hlo); try lia.
  exists k. split_and!; try done; try lia.
Qed.

Lemma calloc_abstracts t n : Forall2 (slot_of t) (calloc n) (replicate (Z.to_nat n) None).
Proof. unfold calloc. by apply Forall2_replicate. Qed.

(** [_init] returns a well-formed empty table whose capacity is the least
    power of two that is at least 32 and at least the truncated quotient
    [(size_t)(size / loadFactor)], which is [5 * size / 4]. *)
Lemma init_spec size :
  0 ≤ size < 2 ^ 50 →
  ∃ t k,
    _init size = Some t ∧ wf t ∧
    tabledim t = 2 ^ k ∧ 5 ≤ k ≤ 51 ∧ 5 * size / 4 ≤ 2 ^ k ∧
    (k = 5 ∨ 2 ^ (k - 1) < 5 * size / 4) ∧
    table t = calloc (2 ^ k) ∧ pools t = [] ∧ npools t = 0 ∧ nfill t = 0 ∧ count t = 0.
Proof.
  intros Hbound. unfold _init, loadFactor.
  rewrite (DoubleFacts.div_loadFactor size Hbound).
  set (v := 5 * size / 4).
  assert (Hle : v ≤ 2 ^ 51).
  { unfold v. apply Z.div_le_upper_bound; lia. }
  destruct (nextpow2_spec v) as (k & Hk & Hrun & Hup & Hlo); [lia|]. rewrite Hrun.
  assert (Hk51 : k ≤ 51).
  { destruct (Z.le_gt_cases k 51) as [|Hgt]; [done|]. destruct Hlo as [->|Hlo]; [lia|].
    assert (2 ^ 51 ≤ 2 ^ (k - 1)) by (apply Z.pow_le_mono_r; lia). lia. }
  set (k' := Z.max k 5).
  assert (Hsize : (if 2 ^ k <? 32 then 32 else 2 ^ k) = 2 ^ k').
  { unfold k'. destruct (Z.ltb_spec (2 ^ k) 32) as [Hlt|Hge].
    - assert (k < 5).
      { destruct (Z.lt_ge_cases k 5) as [|Hge]; [done|].
        assert (2 ^ 5 ≤ 2 ^ k) by (apply Z.pow_le_mono_r; lia).
        change (2 ^ 5) with 32 in *. lia. }
      by replace (Z.max k 5) with 5 by lia.
    - assert (5 ≤ k).
      { destruct (Z.lt_ge_cases k 5) as [Hlt|]; [|done].
        assert (2 ^ k ≤ 2 ^ 4) by (apply Z.pow_le_mono_r; lia).
        change (2 ^ 4) with 16 in *. lia. }
      by replace (Z.max k 5) with k by lia. }
  rewrite Hsize.
  assert (Hpos : 0 < 2 ^ k') by (apply Z.pow_pos_nonneg; lia).
  eexists _, k'. split; [done|]. cbn [tabledim table pools npools nfill count].
  assert (Hkk : 2 ^ k ≤ 2 ^ k') by (apply Z.pow_le_mono_r; lia).
  split_and!; try done; try lia.
  - exists (replicate (Z.to_nat (2 ^ k')) None). split_and!.
    + split.
      * apply calloc_abstracts.
      * exists k'. split; [lia|done].
      * rewrite length_replicate. cbn. lia.
      * intros p h s Hp. apply lookup_replicate in Hp as [? _]. done.
    + split; cbn; try done; try lia.
    + rewrite occupied_replicate. done.
    + cbn. lia.
  - destruct (Z.le_gt_cases k 5); [left; lia|]. right.
    replace k' with k by lia. destruct Hlo; [lia|done].
Qed.

(** ** Reachable tables are well-formed *)

Lemma insert_wf t s :
  wf t → in_limits t s →
  ∃ r t', insert s (Z.of_nat (length s)) t = Some (r, t') ∧ wf t' ∧
          (tabledim t' = tabledim t ∨ tabledim t' = 2 * tabledim t).
Proof.
  intros (sl & Hok & Halloc & Hocc & Hload) Hlim.
  pose proof (wf_room t sl Hok Hocc Hload) as Hroom.
  destruct (key_cases t sl s Hok Hroom) as [[e He] | Habsent].
  - destruct (insert_present t sl s e Hok Hroom He) as (Hins & _).
    exists None, t. split_and!; [done| |by left]. by exists sl.
  - destruct (insert_absent t sl s Hok Halloc Hocc Hload Hlim Habsent)
      as (t' & sl' & Hins & _ & _ & _ & Hok' & Halloc' & Hocc' & Hload' & _ & Hdim & _).
    eexists _, t'. split_and!; [done| |done]. by exists sl'.
Qed.

Lemma update_wf t s :
  wf t → in_limits t s →
  ∃ r t', update s (Z.of_nat (length s)) t = Some (r, t') ∧ wf t' ∧
          (tabledim t' = tabledim t ∨ tabledim t' = 2 * tabledim t).
Proof.
  intros (sl & Hok & Halloc & Hocc & Hload) Hlim.
  pose proof (wf_room t sl Hok Hocc Hload) as Hroom.
  destruct (key_cases t sl s Hok Hroom) as [[e He] | Habsent].
  - destruct (insert_present t sl s e Hok Hroom He) as (_ & Hupd & _).
    eexists _, t. split_and!; [done| |by left]. by exists sl.
  - destruct (insert_absent t sl s Hok Halloc Hocc Hload Hlim Habsent)
      as (t' & sl' & _ & Hupd & _ & _ & Hok' & Halloc' & Hocc' & Hload' & _ & Hdim & _).
    eexists _, t'. split_and!; [done| |done]. by exists sl'.
Qed.

Lemma lookup_total t s :
  wf t → ∃ r, lookup s (Z.of_nat (length s)) t = Some (r, t).
Proof.
  intros (sl & Hok & Halloc & Hocc & Hload).
  pose proof (wf_room t sl Hok Hocc Hload) as Hroom.
  destruct (lookup_spec t sl s Hok Hroom) as (i & e & c & Hl & _). eauto.
Qed.

Lemma reachable_wf t : reachable t → wf t.
Proof.
  induction 1 as [size t Hsize Hinit | t s r t' _ IH Hrun
                  | t s r t' _ IH Hlim Hrun | t s r t' _ IH Hlim Hrun].
  - destruct (init_spec size Hsize) as (t0 & k & Hinit0 & Hwf & _). congruence.
  - destruct (lookup_total t s IH) as [r0 Hr0]. congruence.
  - destruct (insert_wf t s IH Hlim) as (r0 & t0 & Hr0 & Hwf & _). congruence.
  - destruct (update_wf t s IH Hlim) as (r0 & t0 & Hr0 & Hwf & _). congruence.
Qed.

(** ** The reads do not change the state *)

Lemma readonly_ret {A} (a : A) : readonly (ret a).
Proof. intros t a' t' [= _ <-]. done. Qed.

Lemma readonly_stuck {A} : readonly (@stuck A).
Proof. intros t a t' [=]. Qed.

Lemma readonly_gets {A} (f : StringTable → A) : readonly (gets f).
Proof. intros t a t' [= _ <-]. done. Qed.

Lemma readonly_bind {A B} (c : M A) (k : A → M B) :
  readonly c → (∀ a, readonly (k a)) → readonly (bind c k).
Proof.
  intros Hc Hk t b t'. unfold bind.
  destruct (c t) as [[a t1]|] eqn:E; [|done].
  intros Hrun. apply Hc in E as ->. by apply Hk in Hrun.
Qed.

Lemma readonly_load idx off n : readonly (load idx off n).
Proof.
  intros t a t'. unfold load. destruct (idx <? 0); [done|].
  destruct (pools t !! _); [|done]. destruct (pool_read _ _ _); [|done].
  by intros [= _ <-].
Qed.

Lemma readonly_table_get i : readonly (table_get i).
Proof.
  intros t a t'. unfold table_get. destruct (i <? 0); [done|].
  destruct (table t !! _); [|done]. by intros [= _ <-].
Qed.

Lemma readonly_getValue vp : readonly (getValue vp).
Proof.
  unfold getValue. destruct (vp =? 0); [apply readonly_ret|].
  apply readonly_bind; [apply readonly_gets|]. intros ps.
  destruct (ps !! _); [apply readonly_ret | apply readonly_stuck].
Qed.

Lemma readonly_slot_matches e h s len : readonly (slot_matches e h s len).
Proof.
  unfold slot_matches. destruct (hash e =? h); [|apply readonly_ret].
  apply readonly_bind; [apply readonly_getValue|]. intros [sv|]; [|apply readonly_stuck].
  apply readonly_bind.
  { unfold sv_length. apply readonly_bind; [apply readonly_load|].
    intros bs. apply readonly_ret. }
  intros l. destruct (l =? len); [|apply readonly_ret].
  apply readonly_bind; [apply readonly_load|]. intros bs. apply readonly_ret.
Qed.

Lemma readonly_findSlot_loop fuel h s len : ∀ i j,
  readonly (findSlot_loop fuel h s len i j).
Proof.
  induction fuel as [|fuel IH]; intros i j; [apply readonly_stuck|].
  cbn [findSlot_loop].
  apply readonly_bind; [apply readonly_table_get|]. intros e.
  apply readonly_bind.
  { destruct (vptr e =? 0); [apply readonly_ret | apply readonly_slot_matches]. }
  intros [|]; [apply readonly_ret|].
  apply readonly_bind; [apply readonly_gets|]. intros dim. apply IH.
Qed.

Lemma readonly_findSlot h s len : readonly (findSlot h s len).
Proof.
  unfold findSlot. apply readonly_bind; [apply readonly_gets|].
  intros dim. apply readonly_findSlot_loop.
Qed.

Lemma readonly_lookup s len : readonly (lookup s len).
Proof.
  unfold lookup. apply readonly_bind; [apply readonly_findSlot|]. intros i.
  apply readonly_bind; [apply readonly_table_get|]. intros e.
  apply readonly_getValue.
Qed.

(** * The specified properties *)

Lemma demo_init : _init 4 = Some demo_table.
Proof. vm_compute. reflexivity. Qed.

Lemma demo_reachable : reachable demo_table.
Proof.
  apply (reach_init 4); [lia | exact demo_init].
Qed.

Lemma demo_limits s : Z.of_nat (length s) < 2 ^ 62 → in_limits demo_table s.
Proof. intros H. unfold in_limits. cbn. lia. Qed.

(** C8.  [calcHash] is a function of the [len] bytes at [key] and of [len]
    alone (whatever follows them in the buffer is not read), its
    value is a 32-bit number, and it is the MurmurHash2 of the specification:
    seed [h = length], the 4-byte blocks mixed in with [m = 0x5bd1e995]
    and the shift by 24, the 0-3 tail bytes folded in by shifted XORs and
    one multiplication by [m], and the final mix by the shifts 13 and 15. *)
Theorem calcHash_is_murmur2 (key : list byte) :
  Hasher.calcHash key (Z.of_nat (length key)) = Hasher.murmur2_spec key ∧
  0 ≤ Hasher.calcHash key (Z.of_nat (length key)) < 2 ^ 32 ∧
  (∀ rest : list byte,
     Hasher.calcHash (key ++ rest) (Z.of_nat (length key))
     = Hasher.calcHash key (Z.of_nat (length key))) ∧
  Hasher.m = 0x5bd1e995.
Proof.
  split; [|split; [|split]].
  - apply HasherFacts.calcHash_refines.
  - apply HasherFacts.calcHash_range.
  - intros rest. rewrite HasherFacts.calcHash_prefix by (rewrite length_app; lia).
    rewrite take_app_length. symmetry. apply HasherFacts.calcHash_refines.
  - done.
Qed.

Example calcHash_foo : Hasher.calcHash key_foo 3 = 2414502773.
Proof. vm_compute. reflexivity. Qed.

(** C10.  [lookup] is read-only: whatever the key and the state, a call
    that returns leaves the whole state (count, capacity, entries, pools and
    cursor) as it was; and on a table in use it does return. *)
Theorem lookup_read_only (s : list byte) (len : Z) (t : StringTable) :
  (∀ r t', lookup s len t = Some (r, t') → t' = t) ∧
  (reachable t → ∃ r, lookup s (Z.of_nat (length s)) t = Some (r, t)).
Proof.
  split.
  - intros r t'. apply readonly_lookup.
  - intros Hreach. apply lookup_total. by apply reachable_wf.
Qed.

Lemma lookup_read_only_witness :
  lookup key_foo 3 demo_table = Some (None, demo_table) ∧
  reachable demo_table ∧
  ∃ r, lookup key_foo (Z.of_nat (length key_foo)) demo_table = Some (r, demo_table).
Proof.
  split; [vm_compute; reflexivity|]. split; [exact demo_reachable|].
  exact (proj2 (lookup_read_only key_foo 3 demo_table) demo_reachable).
Defined.









Lemma ptr_of_record t vp s sv :
  record_at t vp s → ptr_of vp = Some sv →
  read_record sv t = Some ((Z.of_nat (length s), s, ["000"%byte]), t).
Proof.
  intros Hrec. unfold ptr_of. destruct Hrec as [Hnz Hrest].
  destruct (Z.eqb_spec vp 0); [done|]. intros [= <-].
  by apply read_record_ok.
Qed.










(** C4.  [_init] makes the capacity the least power of two that is at
    least 32 and at least [(size_t)(size / loadFactor)], the integer part
    [5 * size / 4] of the quotient; on every table in use the capacity is a
    power of two, at least 32, and [count <= 0.8 * capacity], that is
    [5 * count <= 4 * capacity]; an [insert] or [update] returns, leaves a
    table in use, and either keeps the capacity or doubles it. *)
Theorem load_factor_invariant :
  (∀ size, 0 ≤ size < 2 ^ 50 →
     ∃ t k, _init size = Some t ∧ reachable t ∧
            tabledim t = 2 ^ k ∧ 5 ≤ k ∧ 5 * size / 4 ≤ 2 ^ k ∧
            (k = 5 ∨ 2 ^ (k - 1) < 5 * size / 4) ∧
            count t = 0) ∧
  (∀ t, reachable t →
     (∃ k, 5 ≤ k ∧ tabledim t = 2 ^ k) ∧ 32 ≤ tabledim t ∧
     5 * count t ≤ 4 * tabledim t) ∧
  (∀ t s, reachable t → in_limits t s →
     (∃ r t', insert s (Z.of_nat (length s)) t = Some (r, t') ∧ reachable t' ∧
              (tabledim t' = tabledim t ∨ tabledim t' = 2 * tabledim t)) ∧
     (∃ r t', update s (Z.of_nat (length s)) t = Some (r, t') ∧ reachable t' ∧
              (tabledim t' = tabledim t ∨ tabledim t' = 2 * tabledim t))).
Proof.
  split; [|split].
  - intros size Hsize.
    destruct (init_spec size Hsize)
      as (t & k & Hinit & _ & Hdim & Hk & Hup & Hlo & _ & _ & _ & _ & Hcnt).
    exists t, k. split_and!; try done; try lia. by apply (reach_init size).
  - intros t (sl & [_ (k & Hk & Hdim) _ _] & _ & _ & Hload)%reachable_wf.
    split; [exists k; split; [lia|done]|]. split; [|done].
    rewrite Hdim. change 32 with (2 ^ 5). apply Z.pow_le_mono_r; lia.
  - intros t s Hreach Hlim. pose proof (reachable_wf t Hreach) as Hwf. split.
    + destruct (insert_wf t s Hwf Hlim) as (r & t' & Hrun & _ & Hdim).
      exists r, t'. split_and!; try done. by apply (reach_insert t s r).
    + destruct (update_wf t s Hwf Hlim) as (r & t' & Hrun & _ & Hdim).
      exists r, t'. split_and!; try done. by apply (reach_update t s r).
Qed.

Lemma load_factor_invariant_witness :
  0 ≤ 205 < 2 ^ 50 ∧
  ∃ t k, _init 205 = Some t ∧ reachable t ∧ tabledim t = 2 ^ k ∧ 5 ≤ k ∧
         tabledim t = 256.
Proof.
  split; [lia|].
  destruct (proj1 load_factor_invariant 205 ltac:(lia))
    as (t & k & Hinit & Hreach & Hdim & Hk & _).
  exists t, k. split; [exact Hinit|]. split; [exact Hreach|]. split; [exact Hdim|].
  split; [exact Hk|].
  assert (E : _init 205 = Some (mkTable (calloc 256) 256 [] 0 0 0))
    by (vm_compute; reflexivity).
  rewrite E in Hinit. by injection Hinit as <-.
Defined.

(** ** The scenario of the specification, run on the model *)
Example scenario_run :
  scenario 24
  = Some (2, 32, Some None, Some (Some (mkPtr 0 0)),
          Some (3, key_foo, ["000"%byte]),
          (26, 64, 1, 624),
          Some (Some (mkPtr 0 0)), Some (Some (mkPtr 0 24)), Some None).
Proof. vm_compute. reflexivity. Qed.

(** * Further properties of the code *)

(** ** What [lookup] says about the keys *)

Lemma lookup_Some_holds t sl s sv :
  table_ok t sl → (occupied sl < length sl)%nat →
  lookup s (Z.of_nat (length s)) t = Some (Some sv, t) →
  ∃ e, holds t sl e (Hasher.calcHash s (Z.of_nat (length s)), s) ∧
       ptr_of (vptr e) = Some sv.
Proof.
  intros Hok Hroom Hlk.
  destruct (key_cases t sl s Hok Hroom) as [[e He] | Habsent].
  - exists e. split; [done|].
    destruct (insert_present t sl s e Hok Hroom He) as (_ & _ & Hlk').
    congruence.
  - rewrite (lookup_absent t sl s Hok Hroom Habsent) in Hlk. done.
Qed.

Lemma lookup_None_absent t sl s :
  table_ok t sl → (occupied sl < length sl)%nat →
  lookup s (Z.of_nat (length s)) t = Some (None, t) →
  ∀ e, ¬ holds t sl e (Hasher.calcHash s (Z.of_nat (length s)), s).
Proof.
  intros Hok Hroom Hlk e He.
  destruct (insert_present t sl s e Hok Hroom He) as (_ & _ & Hlk').
  destruct (holds_record t sl e _ Hok He) as (_ & _ & Hnz & _).
  destruct (proj2 (ptr_of_Some_iff (vptr e)) Hnz) as [sv Hsv].
  congruence.
Qed.

Lemma holds_read t sl e s sv :
  table_ok t sl → holds t sl e (Hasher.calcHash s (Z.of_nat (length s)), s) →
  ptr_of (vptr e) = Some sv →
  read_record sv t = Some ((Z.of_nat (length s), s, ["000"%byte]), t).
Proof.
  intros Hok He Hsv.
  destruct (holds_record t sl e _ Hok He) as (_ & Hrec & _). cbn [snd] in Hrec.
  by apply (ptr_of_record t (vptr e)).
Qed.

Lemma demo_insert_foo :
  insert key_foo 3 demo_table = Some (Some (mkPtr 0 0), demo_table_foo).
Proof. vm_compute. reflexivity. Qed.

Lemma demo_lookup_foo :
  lookup key_foo 3 demo_table_foo = Some (Some (mkPtr 0 0), demo_table_foo).
Proof. vm_compute. reflexivity. Qed.

Lemma demo_foo_reachable : reachable demo_table_foo.
Proof.
  apply (reach_insert demo_table key_foo (Some (mkPtr 0 0)));
    [exact demo_reachable | | exact demo_insert_foo].
  apply demo_limits. cbn. lia.
Qed.




(** ** One [insert] or [update] and the other keys *)





(** X4.  An [insert] of a string that is not in the table adds one to the
    count, and doubles the capacity exactly when the new count exceeds 0.8
    times the capacity, that is when [4 * tabledim < 5 * (count + 1)];
    otherwise the capacity stays; at most one pool is added. *)
Theorem insert_grows_exactly (t : StringTable) (s : list byte) :
  reachable t → in_limits t s →
  lookup s (Z.of_nat (length s)) t = Some (None, t) →
  ∃ sv t',
    insert s (Z.of_nat (length s)) t = Some (Some sv, t') ∧
    count t' = count t + 1 ∧
    tabledim t' = (if 4 * tabledim t <? 5 * (count t + 1)
                   then 2 * tabledim t else tabledim t) ∧
    Z.of_nat (length (table t')) = tabledim t' ∧
    npools t ≤ npools t' ≤ npools t + 1.
Proof.
  intros (sl & Hok & Halloc & Hocc & Hload)%reachable_wf Hlim Hlk.
  pose proof (wf_room t sl Hok Hocc Hload) as Hroom.
  pose proof (lookup_None_absent t sl s Hok Hroom Hlk) as Habsent.
  destruct (insert_absent_dim t sl s Hok Halloc Hocc Hload Hlim Habsent)
    as (t2 & sl2 & Hins & _ & Hnz & _ & Hok2 & _ & _ & _ & Hcnt & _ & _ & Hnp & _ & _
        & Hexact).
  cbn zeta in *.
  destruct (proj2 (ptr_of_Some_iff (alloc_result s t).1) Hnz) as [sv Hsv].
  rewrite Hsv in *. exists sv, t2. split_and!; try done.
  - destruct Hok2 as [Habs2 _ Hlen2 _]. by rewrite (Forall2_length Habs2).
  - rewrite Hnp. unfold alloc_result. cbn. destruct (alloc_fresh _ _); lia.
  - rewrite Hnp. unfold alloc_result. cbn. destruct (alloc_fresh _ _); lia.
Qed.

Lemma insert_grows_exactly_witness :
  lookup key_foo 3 demo_table = Some (None, demo_table) ∧
  ∃ sv t',
    insert key_foo 3 demo_table = Some (Some sv, t') ∧
    count t' = 1 ∧ tabledim t' = 32.
Proof.
  assert (E : lookup key_foo 3 demo_table = Some (None, demo_table))
    by (vm_compute; reflexivity).
  split; [exact E|].
  destruct (insert_grows_exactly demo_table key_foo demo_reachable
              (demo_limits key_foo ltac:(cbn; lia)) E)
    as (sv & t' & Hins & Hcnt & Hdim & _).
  exists sv, t'. split; [exact Hins|]. split; [exact Hcnt|exact Hdim].
Defined.

(** ** The table as a set of keys *)

Lemma occupied_0_no_key (sl : list slot) (i : nat) key :
  occupied sl = 0%nat → sl !! i = Some (Some key) → False.
Proof.
  unfold occupied. intros H0 Hi. apply nil_length_inv in H0.
  assert (Hin : Some key ∈ filter is_Some sl).
  { apply list_elem_of_filter. split; [by eexists|]. by eapply list_elem_of_lookup_2. }
  rewrite H0 in Hin. by apply elem_of_nil in Hin.
Qed.

(** One [insert] or [update] of [s] on a table that holds the keys [ks]. *)
Lemma history_step t ks sl s r t' :
  table_ok t sl → alloc_ok t →
  Z.of_nat (occupied sl) = count t → 5 * count t ≤ 4 * tabledim t →
  NoDup ks → count t = Z.of_nat (length ks) →
  (∀ s0, (∃ e, holds t sl e (Hasher.calcHash s0 (Z.of_nat (length s0)), s0)) ↔ s0 ∈ ks) →
  in_limits t s →
  insert s (Z.of_nat (length s)) t = Some (r, t') ∨
  update s (Z.of_nat (length s)) t = Some (r, t') →
  ∃ sl', table_ok t' sl' ∧ alloc_ok t' ∧
    Z.of_nat (occupied sl') = count t' ∧ 5 * count t' ≤ 4 * tabledim t' ∧
    NoDup (if bool_decide (s ∈ ks) then ks else s :: ks) ∧
    count t' = Z.of_nat (length (if bool_decide (s ∈ ks) then ks else s :: ks)) ∧
    (∀ s0, (∃ e, holds t' sl' e (Hasher.calcHash s0 (Z.of_nat (length s0)), s0))
           ↔ s0 ∈ (if bool_decide (s ∈ ks) then ks else s :: ks)).
Proof.
  intros Hok Halloc Hocc Hload Hnd Hcnt Hmem Hlim Hop.
  pose proof (wf_room t sl Hok Hocc Hload) as Hroom.
  destruct (key_cases t sl s Hok Hroom) as [[e He] | Habsent].
  - assert (Hin : s ∈ ks) by (apply Hmem; by exists e).
    rewrite bool_decide_eq_true_2 by done.
    destruct (insert_present t sl s e Hok Hroom He) as (Hins & Hupd & _).
    assert (t' = t) as -> by (destruct Hop as [Hop|Hop]; congruence).
    by exists sl.
  - assert (Hnin : s ∉ ks).
    { intros Hin. apply Hmem in Hin as [e He]. by apply (Habsent e). }
    rewrite bool_decide_eq_false_2 by done.
    destruct (insert_absent t sl s Hok Halloc Hocc Hload Hlim Habsent)
      as (t2 & sl2 & Hins & Hupd & _ & _ & Hok2 & Halloc2 & Hocc2 & Hload2 & Hcnt2 & _ & _
          & _ & _ & Hholds).
    cbn zeta in *.
    assert (t' = t2) as -> by (destruct Hop as [Hop|Hop]; congruence).
    exists sl2. split_and!; try done.
    + by constructor.
    + rewrite Hcnt2, Hcnt. cbn [length]. lia.
    + intros s0. rewrite elem_of_cons, <- Hmem. split.
      * intros [e [He | [_ [= _ ->]]]%Hholds]; [right; by exists e | by left].
      * intros [-> | [e He]].
        -- eexists. apply Hholds. by right.
        -- exists e. apply Hholds. by left.
Qed.

Lemma history_inv t ks :
  history t ks →
  ∃ sl, table_ok t sl ∧ alloc_ok t ∧
    Z.of_nat (occupied sl) = count t ∧ 5 * count t ≤ 4 * tabledim t ∧
    NoDup ks ∧ count t = Z.of_nat (length ks) ∧
    (∀ s0, (∃ e, holds t sl e (Hasher.calcHash s0 (Z.of_nat (length s0)), s0)) ↔ s0 ∈ ks).
Proof.
  induction 1 as [size t Hsize Hinit | t ks s r t' _ IH Hrun
                  | t ks s r t' _ IH Hlim Hrun | t ks s r t' _ IH Hlim Hrun].
  - destruct (init_spec size Hsize)
      as (t0 & k & Hinit0 & (sl & Hok & Halloc & Hocc & Hload) & _ & _ & _ & _ & _ & _
          & _ & _ & Hcnt).
    assert (t0 = t) as -> by congruence.
    exists sl. split_and!; try done.
    + apply NoDup_nil_2.
    + intros s0. rewrite elem_of_nil. split; [|done].
      intros (e & i & _ & Hi). apply (occupied_0_no_key sl i _ ltac:(lia) Hi).
  - apply readonly_lookup in Hrun as ->. exact IH.
  - destruct IH as (sl & Hok & Halloc & Hocc & Hload & Hnd & Hcnt & Hmem).
    apply (history_step t ks sl s r t'); try done. by left.
  - destruct IH as (sl & Hok & Halloc & Hocc & Hload & Hnd & Hcnt & Hmem).
    apply (history_step t ks sl s r t'); try done. by right.
Qed.

Lemma history_reachable t ks : history t ks → reachable t.
Proof.
  induction 1 as [size t Hsize Hinit | t ks s r t' _ IH Hrun
                  | t ks s r t' _ IH Hlim Hrun | t ks s r t' _ IH Hlim Hrun].
  - by apply (reach_init size).
  - by apply (reach_lookup t s r).
  - by apply (reach_insert t s r).
  - by apply (reach_update t s r).
Qed.




(** ** A run of [insert]s from [_init] *)

(** What one [insert] can add: one key, one pool, one doubling. *)
Lemma insert_bounds t sl s :
  table_ok t sl → alloc_ok t →
  Z.of_nat (occupied sl) = count t → 5 * count t ≤ 4 * tabledim t →
  in_limits t s →
  ∃ r t',
    insert s (Z.of_nat (length s)) t = Some (r, t') ∧
    count t ≤ count t' ≤ count t + 1 ∧
    npools t ≤ npools t' ∧ npools t' - npools t ≤ count t' - count t ∧
    (tabledim t' = tabledim t ∨
     (tabledim t' = 2 * tabledim t ∧ 4 * tabledim t < 5 * count t')).
Proof.
  intros Hok Halloc Hocc Hload Hlim.
  pose proof (wf_room t sl Hok Hocc Hload) as Hroom.
  destruct (key_cases t sl s Hok Hroom) as [[e He] | Habsent].
  - destruct (insert_present t sl s e Hok Hroom He) as (Hins & _).
    exists None, t. split; [done|]. lia.
  - destruct (insert_absent_dim t sl s Hok Halloc Hocc Hload Hlim Habsent)
      as (t2 & sl2 & Hins & _ & _ & _ & _ & _ & _ & _ & Hcnt & _ & _ & Hnp & _ & _ & Hexact).
    cbn zeta in *. eexists _, t2. split; [exact Hins|].
    assert (Hnp2 : npools t ≤ npools t2 ≤ npools t + 1).
    { rewrite Hnp. unfold alloc_result. cbn. destruct (alloc_fresh _ _); lia. }
    destruct (Z.ltb_spec (4 * tabledim t) (5 * (count t + 1))); lia.
Qed.

Lemma insert_all_history ks : ∀ t ks0 D,
  history t ks0 → D ≤ 2 ^ 50 →
  npools t ≤ count t → tabledim t ≤ Z.max D (5 * count t) →
  count t + Z.of_nat (length ks) < 2 ^ 20 - 1 →
  Forall (fun s : list byte => Z.of_nat (length s) < 2 ^ 62) ks →
  ∃ t' ks', insert_all ks t = Some t' ∧ history t' ks' ∧
            (∀ s, s ∈ ks' ↔ s ∈ ks0 ∨ s ∈ ks) ∧
            count t ≤ count t' ∧
            (tabledim t' = tabledim t ∨ 4 * tabledim t < 5 * count t').
Proof.
  induction ks as [|s ks IH]; intros t ks0 D Hhist HD Hnp Hdim Hcnt Hlen.
  - exists t, ks0. split; [done|]. split; [done|]. split; [|lia].
    intros s. rewrite elem_of_nil. tauto.
  - apply Forall_cons_1 in Hlen as [Hs Hlen]. cbn [length] in Hcnt.
    destruct (history_inv t ks0 Hhist) as (sl & Hok & Halloc & Hocc & Hload & _ & _ & _).
    assert (Hlim : in_limits t s) by (unfold in_limits; lia).
    destruct (insert_bounds t sl s Hok Halloc Hocc Hload Hlim)
      as (r & t1 & Hins & Hc1 & Hn1 & Hn1' & Hd1).
    pose proof (hist_insert t ks0 s r t1 Hhist Hlim Hins) as Hhist1.
    destruct (IH t1 _ D Hhist1 HD) as (t' & ks' & Hall & Hhist' & Hmem' & Hc' & Hd');
      try done; try lia.
    exists t', ks'. cbn [insert_all]. rewrite Hins. split; [done|]. split; [done|].
    split; [|lia].
    intros s0. rewrite Hmem', elem_of_cons.
    destruct (bool_decide_reflect (s ∈ ks0)) as [Hin|Hnin].
    + intuition (subst; auto).
    + rewrite elem_of_cons. tauto.
Qed.

(** X6.  A table made by [_init] and filled by [insert]ing the strings of a
    list, with repetitions or not, holds just these strings: [count] is the
    number of distinct strings of the list, [lookup] finds a record holding
    [s] for every [s] of the list, and returns null for every other string.
    Fewer than [2^20 - 1] strings never exhaust the 32-bit handles. *)
Theorem insert_all_contents (size : Z) (ks : list (list byte)) :
  0 ≤ size < 2 ^ 49 → Z.of_nat (length ks) < 2 ^ 20 - 1 →
  Forall (fun s : list byte => Z.of_nat (length s) < 2 ^ 62) ks →
  ∃ t0 t,
    _init size = Some t0 ∧ insert_all ks t0 = Some t ∧
    count t = Z.of_nat (length (remove_dups ks)) ∧
    ∀ s,
      (s ∈ ks →
       ∃ sv, lookup s (Z.of_nat (length s)) t = Some (Some sv, t) ∧
             read_record sv t = Some ((Z.of_nat (length s), s, ["000"%byte]), t)) ∧
      (s ∉ ks → lookup s (Z.of_nat (length s)) t = Some (None, t)).
Proof.
  intros Hsize Hn Hlen.
  destruct (init_spec size ltac:(lia))
    as (t0 & k & Hinit & _ & Hdim & Hk & Hup & Hlo & _ & _ & Hnp & _ & Hcnt).
  assert (Hk50 : k ≤ 50).
  { destruct Hlo as [-> | Hlo]; [lia|].
    assert (5 * size / 4 < 2 ^ 50) by (apply Z.div_lt_upper_bound; lia).
    assert (k - 1 < 50); [|lia]. apply (Z.pow_lt_mono_r_iff 2); lia. }
  assert (Hd50 : tabledim t0 ≤ 2 ^ 50).
  { rewrite Hdim. apply Z.pow_le_mono_r; lia. }
  pose proof (hist_init size t0 ltac:(lia) Hinit) as Hhist0.
  destruct (insert_all_history ks t0 [] (2 ^ 50) Hhist0)
    as (t & ks' & Hall & Hhist & Hmem & _); try done; try lia.
  exists t0, t. split; [done|]. split; [done|].
  destruct (history_inv t ks' Hhist)
    as (sl & Hok & Halloc & Hocc & Hload & Hnd & Hcount & Hkeys).
  pose proof (wf_room t sl Hok Hocc Hload) as Hroom.
  assert (Hmem0 : ∀ s, s ∈ ks' ↔ s ∈ ks).
  { intros s. rewrite Hmem, elem_of_nil. tauto. }
  split.
  - rewrite Hcount. f_equal. apply Permutation_length.
    apply NoDup_Permutation; [done | apply NoDup_remove_dups |].
    intros s. by rewrite elem_of_remove_dups.
  - intros s. rewrite <- Hmem0. split.
    + intros [e He]%Hkeys.
      destruct (insert_present t sl s e Hok Hroom He) as (_ & _ & Hlk).
      destruct (holds_record t sl e _ Hok He) as (_ & _ & Hnz & _).
      destruct (proj2 (ptr_of_Some_iff (vptr e)) Hnz) as [sv Hsv].
      exists sv. rewrite Hsv in Hlk. split; [done|].
      by apply (holds_read t sl e s sv).
    + intros Hnin. apply (lookup_absent t sl s Hok Hroom).
      intros e He. apply Hnin, Hkeys. by exists e.
Qed.

Lemma insert_all_contents_witness :
  ∃ t0 t,
    _init 4 = Some t0 ∧ insert_all [key_foo; key_bar; key_foo] t0 = Some t ∧
    count t = 2 ∧
    lookup [] 0 t = Some (None, t).
Proof.
  destruct (insert_all_contents 4 [key_foo; key_bar; key_foo])
    as (t0 & t & Hinit & Hall & Hcnt & Hlk).
  - lia.
  - cbn. lia.
  - repeat constructor; cbn; lia.
  - exists t0, t. split; [exact Hinit|]. split; [exact Hall|]. split.
    + rewrite Hcnt. vm_compute. reflexivity.
    + apply (proj2 (Hlk [])). intros Hin.
      repeat (apply elem_of_cons in Hin as [Hin|Hin]; [discriminate Hin|]).
      by apply elem_of_nil in Hin.
Defined.

(** ** Invariants of the entry array and of the pools *)

Lemma entry_holds t sl (i : nat) e :
  abstracts t sl → table t !! i = Some e → vptr e ≠ 0 →
  ∃ h s, sl !! i = Some (Some (h, s)) ∧ hash e = h ∧ record_at t (vptr e) s.
Proof.
  intros Habs Hi Hnz.
  destruct (Forall2_lookup_l _ _ _ _ _ Habs Hi) as (c & Hc & Hslot).
  destruct c as [[h s]|]; [|simpl in Hslot; done].
  destruct Hslot as [Hh Hrec]. by exists h, s.
Qed.



(** One [insert] or [update] keeps the cursor and the records aligned. *)
Lemma aligned_step t sl s r t' :
  table_ok t sl → alloc_ok t →
  Z.of_nat (occupied sl) = count t → 5 * count t ≤ 4 * tabledim t →
  nfill t mod 8 = 0 →
  (∀ e key, holds t sl e key → decode_off (vptr e) mod 8 = 0) →
  in_limits t s →
  insert s (Z.of_nat (length s)) t = Some (r, t') ∨
  update s (Z.of_nat (length s)) t = Some (r, t') →
  ∃ sl', table_ok t' sl' ∧ alloc_ok t' ∧
    Z.of_nat (occupied sl') = count t' ∧ 5 * count t' ≤ 4 * tabledim t' ∧
    nfill t' mod 8 = 0 ∧
    (∀ e key, holds t' sl' e key → decode_off (vptr e) mod 8 = 0).
Proof.
  intros Hok Halloc Hocc Hload Hnf Hal Hlim Hop.
  pose proof (wf_room t sl Hok Hocc Hload) as Hroom.
  destruct (key_cases t sl s Hok Hroom) as [[e He] | Habsent].
  - destruct (insert_present t sl s e Hok Hroom He) as (Hins & Hupd & _).
    assert (t' = t) as -> by (destruct Hop as [Hop|Hop]; congruence).
    by exists sl.
  - destruct (insert_absent t sl s Hok Halloc Hocc Hload Hlim Habsent)
      as (t2 & sl2 & Hins & Hupd & _ & _ & Hok2 & Halloc2 & Hocc2 & Hload2 & _ & _ & _
          & _ & Hf & Hholds).
    cbn zeta in *.
    assert (t' = t2) as -> by (destruct Hop as [Hop|Hop]; congruence).
    destruct Hlim as (Hlim1 & _ & Hlim3).
    destruct (alloc_result_shape t s Halloc Hlim1 Hlim3)
      as (np' & off & pold & Hvp & Hnp' & Hoff & _ & Hnfill & _ & _ & _ & _ & _ & _ & _ & _
          & Hcase).
    cbn zeta in *.
    destruct (decode_handle np' off Hnp' Hoff) as (_ & Hdo & _).
    assert (Hoff8 : off mod 8 = 0).
    { destruct Hcase as [(_ & _ & -> & _) | (_ & _ & -> & _)]; done. }
    exists sl2. split_and!; try done.
    + rewrite Hf, Hnfill. clear - Hoff8. lia_mod.
    + intros e key [He | [-> _]]%Hholds; [by apply (Hal e key)|].
      cbn [vptr]. rewrite Hvp, Hdo. done.
Qed.

Lemma reachable_aligned t :
  reachable t →
  ∃ sl, table_ok t sl ∧ alloc_ok t ∧
    Z.of_nat (occupied sl) = count t ∧ 5 * count t ≤ 4 * tabledim t ∧
    nfill t mod 8 = 0 ∧
    (∀ e key, holds t sl e key → decode_off (vptr e) mod 8 = 0).
Proof.
  induction 1 as [size t Hsize Hinit | t s r t' _ IH Hrun
                  | t s r t' _ IH Hlim Hrun | t s r t' _ IH Hlim Hrun].
  - destruct (init_spec size Hsize)
      as (t0 & k & Hinit0 & (sl & Hok & Halloc & Hocc & Hload) & _ & _ & _ & _ & _ & _
          & _ & Hnf & Hcnt).
    assert (t0 = t) as -> by congruence.
    exists sl. split_and!; try done.
    + by rewrite Hnf.
    + intros e key (i & _ & Hi). exfalso.
      apply (occupied_0_no_key sl i _ ltac:(lia) Hi).
  - apply readonly_lookup in Hrun as ->. exact IH.
  - destruct IH as (sl & Hok & Halloc & Hocc & Hload & Hnf & Hal).
    apply (aligned_step t sl s r t'); try done. by left.
  - destruct IH as (sl & Hok & Halloc & Hocc & Hload & Hnf & Hal).
    apply (aligned_step t sl s r t'); try done. by right.
Qed.

(** X8.  Records are 8-byte aligned in their pools: on every table in use
    the cursor [nfill] is a multiple of 8, and so is the offset packed in
    every handle of the entry array and the offset of every record that
    [lookup] returns. *)
Theorem records_aligned (t : StringTable) :
  reachable t →
  nfill t mod 8 = 0 ∧
  (∀ e, e ∈ table t → vptr e ≠ 0 → Z.land (vptr e) (POOL_SIZE - 1) mod 8 = 0) ∧
  (∀ s sv, lookup s (Z.of_nat (length s)) t = Some (Some sv, t) → sv_off sv mod 8 = 0).
Proof.
  intros (sl & Hok & Halloc & Hocc & Hload & Hnf & Hal)%reachable_aligned.
  pose proof (wf_room t sl Hok Hocc Hload) as Hroom.
  pose proof Hok as [Habs _ _ _].
  split; [done|]. split.
  - intros e [i Hi]%list_elem_of_lookup_1 Hnz.
    destruct (entry_holds t sl i e Habs Hi Hnz) as (h & s & Hc & _ & _).
    apply (Hal e (h, s)). by exists i.
  - intros s sv Hlk.
    destruct (lookup_Some_holds t sl s sv Hok Hroom Hlk) as (e & He & Hsv).
    unfold ptr_of in Hsv. destruct (vptr e =? 0); [done|].
    injection Hsv as <-. cbn [sv_off]. by apply (Hal e _ He).
Qed.

Lemma records_aligned_witness :
  reachable demo_table_foo ∧ nfill demo_table_foo mod 8 = 0 ∧
  sv_off (mkPtr 0 0) mod 8 = 0.
Proof.
  split; [exact demo_foo_reachable|].
  destruct (records_aligned demo_table_foo demo_foo_reachable) as (H1 & _ & H3).
  split; [exact H1|]. exact (H3 key_foo (mkPtr 0 0) demo_lookup_foo).
Defined.



(** ** [nextpow2] *)

Lemma nextpow2_loop_wrapped fuel val : ∀ res,
  2 ^ 63 < val → (res = 0 ∨ ∃ j, 0 ≤ j ≤ 63 ∧ res = 2 ^ j) →
  nextpow2_loop fuel res val = None.
Proof.
  induction fuel as [|fuel IH]; intros res Hval Hres; [done|].
  cbn [nextpow2_loop].
  assert (Hle : res ≤ 2 ^ 63).
  { destruct Hres as [-> | (j & Hj & ->)]; [lia|]. apply Z.pow_le_mono_r; lia. }
  destruct (Z.ltb_spec res val); [|lia].
  apply IH; [done|]. rewrite Z.shiftl_mul_pow2 by lia. change (2 ^ 1) with 2.
  destruct Hres as [-> | (j & Hj & ->)]; [by left|].
  destruct (Z.eq_dec j 63) as [-> | Hne].
  - left. done.
  - right. exists (j + 1). split; [lia|].
    assert (2 ^ (j + 1) ≤ 2 ^ 63) by (apply Z.pow_le_mono_r; lia).
    rewrite Z.pow_add_r in * by lia. change (2 ^ 1) with 2 in *.
    assert (0 < 2 ^ j) by (apply Z.pow_pos_nonneg; lia).
    unfold usize. rewrite Z.mod_small; lia.
Qed.

(** X10.  [nextpow2(val)] is the least power of two that is at least
    [val], and 1 for [val = 0], as long as [val <= 2^63]; for a larger
    [val] the result of the shift wraps around to 0 and the loop never
    returns. *)
Theorem nextpow2_least_or_diverges :
  (∀ val, 0 ≤ val ≤ 2 ^ 63 →
     ∃ k, 0 ≤ k ≤ 63 ∧ nextpow2 val = Some (2 ^ k) ∧ val ≤ 2 ^ k ∧
          (∀ k', 0 ≤ k' → val ≤ 2 ^ k' → k ≤ k')) ∧
  (∀ val fuel, 2 ^ 63 < val → nextpow2_loop fuel 1 val = None).
Proof.
  split.
  - intros val Hval.
    destruct (nextpow2_spec val ltac:(lia)) as (k & Hk & Hrun & Hup & Hlo).
    exists k. split; [lia|]. split; [done|]. split; [done|].
    intros k' Hk' Hle. destruct Hlo as [-> | Hlo]; [lia|].
    assert (k - 1 < k'); [|lia]. apply (Z.pow_lt_mono_r_iff 2); lia.
  - intros val fuel Hval. apply nextpow2_loop_wrapped; [done|].
    right. exists 0. split; [lia|done].
Qed.

Lemma nextpow2_least_or_diverges_witness :
  (∃ k, nextpow2 5 = Some (2 ^ k) ∧ 5 ≤ 2 ^ k ∧ k ≤ 3) ∧
  nextpow2_loop 1000 1 (2 ^ 63 + 1) = None.
Proof.
  split.
  - destruct (proj1 nextpow2_least_or_diverges 5 ltac:(lia)) as (k & _ & Hrun & Hup & Hleast).
    exists k. split; [exact Hrun|]. split; [exact Hup|].
    apply Hleast; [lia|]. vm_compute. discriminate.
  - apply (proj2 nextpow2_least_or_diverges). lia.
Defined.

(** ** [findSlot] on a table without an empty slot *)

(** X11.  The loop of [findSlot] has no exit but an empty slot or a match:
    on a table none of whose entries is empty or has the hash searched for,
    it returns after no number of turns, from whatever slot it starts. *)
Theorem findSlot_needs_empty_slot (t : StringTable) (h : Z) (s : list byte) (len : Z) :
  (∀ e, e ∈ table t → vptr e ≠ 0 ∧ hash e ≠ h) →
  (∀ fuel i j, findSlot_loop fuel h s len i j t = None) ∧
  findSlot h s len t = None.
Proof.
  intros Hfull.
  assert (Hloop : ∀ fuel i j, findSlot_loop fuel h s len i j t = None).
  { induction fuel as [|fuel IH]; intros i j; [done|].
    cbn [findSlot_loop]. unfold bind at 1. unfold table_get.
    destruct (i <? 0); [done|].
    destruct (table t !! Z.to_nat i) as [e|] eqn:He; [|done].
    destruct (Hfull e) as [Hnz Hne]; [by eapply list_elem_of_lookup_2|].
    apply Z.eqb_neq in Hnz, Hne. unfold bind at 1. rewrite Hnz.
    unfold slot_matches. rewrite Hne. unfold ret, bind, gets. apply IH. }
  split; [done|]. unfold findSlot, bind, gets. apply Hloop.
Qed.

Lemma findSlot_needs_empty_slot_witness :
  findSlot 7 key_foo 3 (mkTable (replicate 32 (mkEntry 5 4096)) 32 [] 0 0 32) = None.
Proof.
  apply (findSlot_needs_empty_slot
           (mkTable (replicate 32 (mkEntry 5 4096)) 32 [] 0 0 32) 7 key_foo 3).
  intros e He. cbn [table] in He. apply elem_of_replicate in He as [-> _].
  split; discriminate.
Defined.

(** ** Destruction *)

Lemma destructor_loop_S fuel i t :
  destructor_loop (S fuel) i t
  = (let! np := gets npools in
     if i <? np then
       let! ps := gets pools in
       match ps !! Z.to_nat i with
       | Some _ =>
           let! rest := destructor_loop fuel (usize (i + 1)) in
           ret (Pool i :: rest)
       | None => stuck
       end
     else ret []) t.
Proof. done. Qed.

Lemma destructor_loop_spec t : ∀ (n i : nat),
  npools t = Z.of_nat (length (pools t)) → npools t < 2 ^ 20 →
  (i + n = length (pools t))%nat →
  destructor_loop (S n) (Z.of_nat i) t
  = Some (map (fun j => Pool (Z.of_nat j)) (seq i n), t).
Proof.
  induction n as [|n IH]; intros i Hnp Hlim Hin.
  - cbn [destructor_loop]. unfold bind, gets.
    destruct (Z.ltb_spec (Z.of_nat i) (npools t)); [lia|]. done.
  - rewrite destructor_loop_S. unfold bind at 1. unfold gets at 1.
    destruct (Z.ltb_spec (Z.of_nat i) (npools t)); [|lia].
    unfold bind at 1. unfold gets at 1. rewrite Nat2Z.id.
    destruct (pools t !! i) as [p|] eqn:Hp.
    2:{ apply lookup_ge_None in Hp. lia. }
    unfold bind at 1.
    replace (usize (Z.of_nat i + 1)) with (Z.of_nat (S i))
      by (unfold usize; rewrite Z.mod_small; lia).
    rewrite (IH (S i) Hnp Hlim ltac:(lia)). done.
Qed.

Lemma null_table_findSlot t h s len :
  table t = [] → 0 < tabledim t → findSlot h s len t = None.
Proof.
  intros Htab Hdim. unfold findSlot, bind, gets.
  destruct (Z.to_nat (tabledim t)) as [|n] eqn:E; [lia|].
  cbn [findSlot_loop]. unfold bind, table_get. rewrite Htab.
  destruct (_ <? 0); [done|]. by rewrite lookup_nil.
Qed.

(** X12.  On every table in use the destructor returns, having freed each
    of the [npools] pools once, in index order, then the entry array and the
    array of pool pointers; it leaves [table] and [pools] null and the
    other fields as they were, so every later [lookup], [insert] or [update]
    goes through a null pointer and has no defined result, and so has a
    second destruction when a pool had been allocated. *)
Theorem destructor_frees_every_pool (t : StringTable) :
  reachable t →
  ∃ t',
    StringTable_destructor t
    = Some (map (fun j => Pool (Z.of_nat j)) (seq 0 (length (pools t)))
            ++ [Table; PoolArray], t') ∧
    table t' = [] ∧ pools t' = [] ∧
    tabledim t' = tabledim t ∧ npools t' = npools t ∧
    nfill t' = nfill t ∧ count t' = count t ∧
    (∀ s len, lookup s len t' = None ∧ insert s len t' = None ∧
              update s len t' = None) ∧
    (0 < npools t → StringTable_destructor t' = None).
Proof.
  intros (sl & Hok & [Hnp Hh _ _ _] & _)%reachable_wf.
  destruct Hok as [_ (k & Hk & Hdim) _ _].
  assert (Hpos : 0 < tabledim t) by (rewrite Hdim; apply Z.pow_pos_nonneg; lia).
  exists (mkTable [] (tabledim t) [] (npools t) (nfill t) (count t)).
  split.
  - unfold StringTable_destructor. unfold bind at 1. unfold gets at 1.
    pose proof (destructor_loop_spec t (length (pools t)) 0 Hnp Hh eq_refl) as Hloop.
    change (Z.of_nat 0) with 0 in Hloop.
    replace (Z.to_nat (npools t)) with (length (pools t)) by lia.
    unfold bind at 1. rewrite Hloop.
    unfold bind, modify, ret, set_table, set_pools. cbn. by rewrite Hnp.
  - split_and!; try done.
    + intros s len.
      pose proof (null_table_findSlot
                    (mkTable [] (tabledim t) [] (npools t) (nfill t) (count t))
                    (Hasher.calcHash s len) s len eq_refl Hpos) as Hfs.
      unfold lookup, insert, update, bind. rewrite Hfs. done.
    + intros Hsome. unfold StringTable_destructor, bind, gets. cbn [npools].
      cbn [destructor_loop]. unfold bind, gets. cbn [npools pools].
      destruct (Z.ltb_spec 0 (npools t)); [|lia]. done.
Qed.

Lemma destructor_frees_every_pool_witness :
  reachable demo_table_foo ∧
  ∃ t', StringTable_destructor demo_table_foo = Some ([Pool 0; Table; PoolArray], t') ∧
        lookup key_foo 3 t' = None ∧ StringTable_destructor t' = None.
Proof.
  split; [exact demo_foo_reachable|].
  destruct (destructor_frees_every_pool demo_table_foo demo_foo_reachable)
    as (t' & Hrun & _ & _ & _ & _ & _ & _ & Hops & Htwice).
  exists t'. split; [exact Hrun|]. split; [exact (proj1 (Hops key_foo 3))|].
  apply Htwice. cbn. lia.
Defined.

(** ** Record pointers stay valid *)




(** ** The end of the handle space *)

(** X14.  A handle has 20 bits for the pool number: when [allocValue]
    opens pool number [2^20], the handle [npools << POOL_BITS | nfill] of
    the record it places there is truncated to 0, the handle of the empty
    slot, which [getValue] decodes to the null pointer. *)
Theorem handle_space_exhausted (t : StringTable) (s : list byte) :
  npools t = 2 ^ 20 - 1 → npools t = Z.of_nat (length (pools t)) →
  0 ≤ nfill t < 2 ^ 63 → Z.of_nat (length s) < 2 ^ 62 →
  POOL_SIZE < nfill t + (sizeof_StringValue + Z.of_nat (length s) + 1) →
  ∃ t',
    allocValue s (Z.of_nat (length s)) t = Some (0, t') ∧
    npools t' = 2 ^ 20 ∧ Z.of_nat (length (pools t')) = 2 ^ 20 ∧
    read_record (mkPtr (2 ^ 20 - 1) 0) t'
    = Some ((Z.of_nat (length s), s, ["000"%byte]), t') ∧
    getValue 0 t' = Some (None, t').
Proof.
  intros Hnp Hlen Hnf Hs Hfull.
  unfold allocValue.
  set (len := Z.of_nat (length s)) in *.
  assert (Hreq : usize (sizeof_StringValue + len + 1) = sizeof_StringValue + len + 1).
  { apply usize_small. unfold sizeof_StringValue. lia. }
  rewrite Hreq. set (required := sizeof_StringValue + len + 1) in *.
  assert (Hreq' : 17 ≤ required < 2 ^ 62 + 17) by (unfold required, sizeof_StringValue; lia).
  unfold bind at 1. unfold gets at 1. unfold bind at 1. unfold gets at 1.
  rewrite (usize_small (nfill t + required)) by lia.
  destruct (Z.ltb_spec POOL_SIZE (nfill t + required)) as [_|?]; [|lia].
  rewrite orb_true_r. unfold bind at 1.
  unfold alloc_new_pool, bind, gets, modify.
  cbn [set_npools set_pools set_nfill pools table tabledim npools nfill count].
  assert (Hmax : (if POOL_SIZE <? required then required else POOL_SIZE)
                 = Z.max required POOL_SIZE)
    by (destruct (Z.ltb_spec POOL_SIZE required); lia).
  rewrite Hmax. set (pnew := malloc (Z.max required POOL_SIZE)).
  assert (Hpl : Z.of_nat (length pnew) = Z.max required POOL_SIZE).
  { unfold pnew, malloc. rewrite length_replicate. lia. }
  rewrite (usize_small (npools t + 1)) by lia.
  assert (Hlk : (pools t ++ [pnew]) !! Z.to_nat (npools t + 1 - 1) = Some pnew).
  { rewrite lookup_app_r by lia.
    replace (Z.to_nat (npools t + 1 - 1) - length (pools t))%nat with 0%nat by lia.
    done. }
  pose proof POOL_SIZE_eq as HPS.
  unfold required, len.
  rewrite (alloc_place_raw _ s pnew);
    cbn [npools nfill set_nfill set_pools set_npools pools]; try done; try lia.
  cbn [table tabledim count].
  fold len. fold required.
  set (t' := mkTable _ _ _ _ _ _).
  assert (Hvp : u32 ((npools t + 1) * POOL_SIZE + 0) = 0).
  { rewrite Hnp, HPS. done. }
  rewrite Hvp. exists t'. split; [done|].
  assert (Hlast : pools t' !! Z.to_nat (2 ^ 20 - 1)
                  = Some (list_inserts (Z.to_nat 0) (Some <$> record_bytes s) pnew)).
  { unfold t'. cbn [pools]. rewrite <- Hnp.
    replace (npools t + 1 - 1) with (npools t) by lia.
    apply list_lookup_insert_eq. rewrite length_app. cbn. lia. }
  split; [unfold t'; cbn; lia|]. split.
  { unfold t'. cbn [pools]. rewrite length_insert, length_app. cbn. lia. }
  split; [|done].
  pose proof (pool_write_Some pnew 0 (record_bytes s) ltac:(lia)
                ltac:(rewrite record_bytes_length; fold len; lia)) as Hw.
  unfold read_record, sv_length, sv_lstring, bind, ret. cbn [sv_pool sv_off].
  unfold off_length, off_lstring.
  rewrite (load_ok t' (2 ^ 20 - 1) (0 + 8) 8 _ (encode_usize len) ltac:(lia) Hlast).
  2:{ apply (pool_read_write_sub pnew 0 (encode_usize 0)
               (encode_usize len) (s ++ ["000"%byte])). apply Hw. }
  rewrite decode_encode by (fold len; lia).
  rewrite (load_ok t' (2 ^ 20 - 1) (0 + 16) len _ s ltac:(lia) Hlast).
  2:{ unfold record_bytes in Hw. rewrite (app_assoc (encode_usize 0)) in Hw.
      pose proof (pool_read_write_sub pnew 0 _ s ["000"%byte] _ Hw) as Hr.
      rewrite length_app, !encode_usize_length in Hr. exact Hr. }
  rewrite (load_ok t' (2 ^ 20 - 1) (0 + 16 + len) 1 _ ["000"%byte] ltac:(lia) Hlast).
  2:{ unfold record_bytes in Hw.
      rewrite (app_assoc (encode_usize 0)), (app_assoc _ s) in Hw.
      rewrite <- (app_nil_r ["000"%byte]) in Hw at 1.
      pose proof (pool_read_write_sub pnew 0 _ ["000"%byte] [] _ Hw) as Hr.
      rewrite !length_app, !encode_usize_length in Hr.
      by replace (0 + Z.of_nat (8 + 8 + length s)) with (0 + 16 + len) in Hr by lia. }
  done.
Qed.

Lemma handle_space_exhausted_witness :
  ∃ t',
    allocValue key_foo 3
      (mkTable (calloc 32) 32 (replicate (Z.to_nat (2 ^ 20 - 1)) []) (2 ^ 20 - 1) 4096 0)
    = Some (0, t') ∧ npools t' = 2 ^ 20.
Proof.
  destruct (handle_space_exhausted
              (mkTable (calloc 32) 32 (replicate (Z.to_nat (2 ^ 20 - 1)) [])
                       (2 ^ 20 - 1) 4096 0) key_foo)
    as (t' & Hrun & Hnp & _).
  - reflexivity.
  - cbn [npools pools]. rewrite length_replicate. lia.
  - cbn [nfill]. lia.
  - cbn. lia.
  - vm_compute. reflexivity.
  - exists t'. split; [exact Hrun | exact Hnp].
Defined.
